(** * rviz_satellite: the tile loader (src/tileloader.cpp)

    A shallow embedding of [TileLoader]: the coordinate mapper, the cache
    path and URL resolvers, the proxy set-up and the batch orchestrator
    ([start], [finishedRequest], [abort]), followed by the properties
    proved about them. *)

From Stdlib Require Import ZArith List String Ascii Bool Lia Floats.
From Stdlib Require Import Permutation Sorting.Sorted.
From Stdlib Require Import Decimal DecimalString DecimalZ.
Import ListNotations.

Set Warnings "-inexact-float".

Local Open Scope string_scope.
Local Open Scope Z_scope.

(** ** Machine integers

    [int] is a 32-bit two's-complement integer, carried by [Z].  Overflow of
    a signed operation is undefined in C++; it is written out here as the
    wrap-around the usual targets give.  [1 << zoom] is only meaningful for
    [0 <= zoom <= 31]. *)

Definition INT_MIN : Z := - 2 ^ 31.
Definition INT_MAX : Z := 2 ^ 31 - 1.

Definition wrap_int (z : Z) : Z := (z + 2 ^ 31) mod 2 ^ 32 - 2 ^ 31.
Definition wrap_uint (z : Z) : Z := z mod 2 ^ 32.
Definition wrap_quint16 (z : Z) : Z := z mod 2 ^ 16.

Definition in_int (z : Z) : Prop := INT_MIN <= z <= INT_MAX.

Definition int_add (a b : Z) : Z := wrap_int (a + b).
Definition int_sub (a b : Z) : Z := wrap_int (a - b).
(** [1 << zoom], of type [int]. *)
Definition int_shl1 (zoom : Z) : Z := wrap_int (Z.shiftl 1 zoom).

(** [for (int i = lo; i <= hi; i++)]: the values [i] takes, in order.  (With
    [hi = INT_MAX] the increment of the C loop overflows; that needs
    [zoom_ = 31] and a rectangle reaching the last column or row.) *)
Definition for_range (lo hi : Z) : list Z :=
  map (fun i => lo + Z.of_nat i) (seq 0 (Z.to_nat (hi - lo + 1))).

(** ** Strings *)

(** [std::to_string] on an integer, [QString::number] on an [int]. *)
Definition to_string (z : Z) : string := NilZero.string_of_int (Z.to_int z).

Definition is_upper (c : ascii) : bool :=
  let n := nat_of_ascii c in (65 <=? n)%nat && (n <=? 90)%nat.

Definition to_lower (c : ascii) : ascii :=
  if is_upper c then ascii_of_nat (nat_of_ascii c + 32) else c.

(** [std::string::replace(pos, len, r)] for [pos <= size]. *)
Definition string_replace (s : string) (pos len : nat) (r : string) : string :=
  substring 0 pos s ++ r ++ substring (pos + len) (length s - (pos + len)) s.

(** ** [replaceRegex]

    The three expressions used are [\{x\}], [\{y\}] and [\{z\}] with
    [boost::regex::icase]: an opening brace, the letter in either case, a
    closing brace.  [token_at c s i] says that such a match starts at offset
    [i] of [s]. *)

Definition char_is (c : ascii) (o : option ascii) : bool :=
  match o with
  | Some a => Ascii.eqb a c
  | None => false
  end.

Definition char_is_icase (c : ascii) (o : option ascii) : bool :=
  match o with
  | Some a => Ascii.eqb (to_lower a) (to_lower c)
  | None => false
  end.

Definition token_at (c : ascii) (s : string) (i : nat) : bool :=
  char_is "{" (get i s) && char_is_icase c (get (i + 1) s)
  && char_is "}" (get (i + 2) s).

(** [boost::regex_search(start, end, what, ex)]: the leftmost match lying
    within the offsets [start, end) of the string.  The result is the
    absolute offset of the match; [n] bounds the offsets still to try. *)
Fixpoint regex_search_from (c : ascii) (s : string) (i end_ n : nat)
  : option nat :=
  match n with
  | O => None
  | S n' =>
      if (i + 3 <=? end_)%nat && token_at c s i then Some i
      else regex_search_from c s (S i) end_ n'
  end.

Definition regex_search (c : ascii) (s : string) (start end_ : nat)
  : option nat :=
  regex_search_from c s start end_ (end_ - start).

(** The loop of [replaceRegex].  [str.replace] changes the string in place
    and the iterators are not taken again, so [start] and [end] are kept as
    offsets into the string's storage: [end] is taken once, before the loop,
    and [start] is moved to [what[0].second], the end of the match as it was
    found.  [what.position()] is the distance of the match from the
    beginning of the searched range, that is from [start], and it is this
    distance that [str.replace] receives as a position in the string.  (The
    storage past the end of a string that got shorter holds no match: a
    terminator is written there at each replacement.) *)
Fixpoint replace_loop (fuel : nat) (c : ascii) (replace : string)
    (str : string) (start end_ : nat) (count : nat) : string * nat :=
  match fuel with
  | O => (str, count)
  | S fuel' =>
      match regex_search c str start end_ with
      | None => (str, count)
      | Some i =>
          let position := (i - start)%nat in
          let str' := string_replace str position 3 replace in
          replace_loop fuel' c replace str' (i + 3) end_ (S count)
      end
  end.

(** Returns the string as the loop leaves it, and the count. *)
Definition replaceRegex (c : ascii) (str : string) (replace : string)
  : string * nat :=
  replace_loop (S (length str)) c replace str 0 (length str) 0.

(** ** Results of functions that may throw *)

Inductive exception : Type :=
  | invalid_argument_zoom (zoom : Z)        (* "Zoom level ... too high" *)
  | invalid_argument_latitude (lat : float) (* "Latitude ... invalid" *)
  | invalid_argument_longitude (lon : float). (* "Longitude ... invalid" *)

Inductive outcome (A : Type) : Type :=
  | Return (a : A)
  | Throw (e : exception).

Arguments Return {A} a.
Arguments Throw {A} e.

Definition throws {A : Type} (o : outcome A) : bool :=
  match o with
  | Return _ => false
  | Throw _ => true
  end.

(** ** Coordinate mapper

    [double] is IEEE binary64, the kernel's [float].  The functions of
    [<cmath>] are not part of the sources: they are parameters. *)

Definition M_PI : float := 3.14159265358979323846%float.

Definition double_of_uint (n : Z) : float :=
  PrimFloat.of_uint63 (Uint63.of_Z n).

Definition double_of_int (n : Z) : float :=
  if n <? 0 then PrimFloat.opp (double_of_uint (- n)) else double_of_uint n.

Section CoordinateMapper.

Variables std_log std_tan std_cos : float -> float.

Local Open Scope float_scope.

(** [zoom] is an [unsigned int]; the pair returned stands for the two
    reference parameters [x] and [y]. *)
Definition latLonToTileCoords (lat lon : float) (zoom : Z)
  : outcome (float * float) :=
  if (zoom >? 31)%Z then Throw (invalid_argument_zoom zoom)
  else if (lat <? -85.0511) || (85.0511 <? lat) then
    Throw (invalid_argument_latitude lat)
  else if (lon <? double_of_int (-180)) || (double_of_int 180 <? lon) then
    Throw (invalid_argument_longitude lon)
  else
    let rho := M_PI / double_of_int 180 in
    let lat_rad := lat * rho in
    let n := wrap_uint (int_shl1 zoom) in
    let x := double_of_uint n * ((lon + double_of_int 180) / 360.0) in
    let y :=
      double_of_uint n
      * (double_of_int 1
         - (std_log (std_tan lat_rad + double_of_int 1 / std_cos lat_rad)
            / M_PI))
      / double_of_int 2 in
    Return (x, y).

(** No statement of [zoomToResolution] throws. *)
Definition zoomToResolution (lat : float) (zoom : Z) : outcome float :=
  let lat_rad := lat * M_PI / double_of_int 180 in
  Return (156543.034 * std_cos lat_rad / double_of_int (int_shl1 zoom)).

End CoordinateMapper.

(** ** Qt values *)

(** A [QImage] is null or holds decoded pixels, here an opaque number. *)
Inductive QImage : Type :=
  | null_image
  | pixels (content : nat).

Definition isNull (i : QImage) : bool :=
  match i with
  | null_image => true
  | pixels _ => false
  end.

(** A [QUrl] is carried by its text; the empty URL is the empty string. *)
Definition QUrl : Type := string.
Definition isEmpty (u : string) : bool := String.eqb u "".

Record QNetworkRequest : Type := mkRequest {
  url : QUrl;
  rawHeaders : list (string * string)
}.

(** [QNetworkProxy(QNetworkProxy::HttpProxy, hostName, port)]: the port is a
    [quint16]. *)
Record QNetworkProxy : Type := HttpProxy {
  hostName : string;
  port : Z
}.

(** The identity of a [QNetworkReply] object (the pointer the code
    compares); every reply created gets a new one. *)
Definition handle : Type := nat.

Record QNetworkAccessManager : Type := mkManager {
  useSystemConfiguration : bool;
  proxy : option QNetworkProxy;
  (** the requests sent through [get], oldest first, each with its reply *)
  requests : list (handle * QNetworkRequest)
}.

(** What a finished [QNetworkReply] carries: its request, the
    [RedirectionTargetAttribute] converted to a URL (empty when absent), its
    error code ([QNetworkReply::NoError] is 0) and what a [QImageReader] on
    it answers to [canRead] and [read]. *)
Record QNetworkReply : Type := mkReply {
  reply_id : handle;
  request : QNetworkRequest;
  redirectionTarget : QUrl;
  error : Z;
  canRead : bool;
  read : QImage
}.

Definition NoError : Z := 0.

(** [QString::split(sep)] with the default [KeepEmptyParts]. *)
Fixpoint split (sep : ascii) (s : string) : list string :=
  match s with
  | EmptyString => [EmptyString]
  | String c s' =>
      if Ascii.eqb c sep then EmptyString :: split sep s'
      else
        match split sep s' with
        | field :: fields => String c field :: fields
        | [] => [String c EmptyString]
        end
  end.

(** ** Tile records *)

(** The members of [MapTile] that the source file reads and writes.  The
    class itself is declared in tileloader.h, which is not among the
    sources. *)
Record MapTile : Type := mkMapTile {
  x_ : Z;
  y_ : Z;
  z_ : Z;
  reply_ : option handle;
  image_ : QImage
}.

(** Modelled from the spec: the constructors of [MapTile] are in
    tileloader.h.  [MapTile(x, y, z, image)] makes the record of a cache hit,
    which holds its image and no pending request. *)
Definition MapTile_image (x y z : Z) (image : QImage) : MapTile :=
  mkMapTile x y z None image.

(** Modelled from the spec: [MapTile(x, y, z, reply)] makes the record of a
    tile being fetched, which holds the handle of its request and no image
    yet. *)
Definition MapTile_reply (x y z : Z) (rep : handle) : MapTile :=
  mkMapTile x y z (Some rep) null_image.

Definition hasImage (t : MapTile) : bool := negb (isNull (image_ t)).

Definition abortLoading (t : MapTile) : MapTile :=
  mkMapTile (x_ t) (y_ t) (z_ t) None (image_ t).

(** [tile.reply() == reply] *)
Definition has_reply (h : handle) (t : MapTile) : bool :=
  match reply_ t with
  | Some h' => Nat.eqb h' h
  | None => false
  end.

(** ** What the loader does to the outside: the signals it emits and the
    files it writes, in order. *)
Inductive event : Type :=
  | initiatedRequest (r : QNetworkRequest)
  | receivedImage (r : QNetworkRequest)
  | errorOcurred (msg : string)
  | warnOcurred (msg : string)
  | finishedLoading
  | image_save (path : string) (image : QImage).

Definition is_finishedLoading (e : event) : bool :=
  match e with
  | finishedLoading => true
  | _ => false
  end.

Definition is_initiatedRequest (e : event) : bool :=
  match e with
  | initiatedRequest _ => true
  | _ => false
  end.

(** ** The loader *)

Record TileLoader : Type := mkTileLoader {
  zoom_ : Z;
  blocks_ : Z;
  center_tile_x_ : Z;
  center_tile_y_ : Z;
  object_uri_ : string;
  cache_path_ : string;
  offline_mode_ : bool;
  localhostProxy : QNetworkProxy;
  urlRedirectedTo : QUrl;
  tiles_ : list MapTile;
  qnam_ : option QNetworkAccessManager;
  (** not a member: the identity the next reply created will have *)
  next_reply : handle
}.

Definition set_tiles (l : TileLoader) (ts : list MapTile) : TileLoader :=
  mkTileLoader (zoom_ l) (blocks_ l) (center_tile_x_ l) (center_tile_y_ l)
    (object_uri_ l) (cache_path_ l) (offline_mode_ l) (localhostProxy l)
    (urlRedirectedTo l) ts (qnam_ l) (next_reply l).

Definition set_qnam (l : TileLoader) (m : option QNetworkAccessManager)
    (next : handle) : TileLoader :=
  mkTileLoader (zoom_ l) (blocks_ l) (center_tile_x_ l) (center_tile_y_ l)
    (object_uri_ l) (cache_path_ l) (offline_mode_ l) (localhostProxy l)
    (urlRedirectedTo l) (tiles_ l) m next.

Definition set_urlRedirectedTo (l : TileLoader) (u : QUrl) : TileLoader :=
  mkTileLoader (zoom_ l) (blocks_ l) (center_tile_x_ l) (center_tile_y_ l)
    (object_uri_ l) (cache_path_ l) (offline_mode_ l) (localhostProxy l)
    u (tiles_ l) (qnam_ l) (next_reply l).

(** ** Proxy set-up (the constructor, lines 74-87)

    [QString::toUInt] belongs to Qt: it is a parameter. *)

Section Proxy.

Variable toUInt : string -> Z.

Definition TileLoader_proxy (proxy_ : string) : QNetworkProxy :=
  let kStr := split ":" proxy_ in
  if (List.length kStr =? 2)%nat then
    HttpProxy (nth 0 kStr "") (wrap_quint16 (toUInt (nth 1 kStr "")))
  else HttpProxy "" 0.

End Proxy.

(** ** URL and cache path resolvers *)

(** The text handed to [QUrl]. *)
Definition uriForTile (l : TileLoader) (x y : Z) : QUrl :=
  let object := object_uri_ l in
  let object := fst (replaceRegex "x" object (to_string x)) in
  let object := fst (replaceRegex "y" object (to_string y)) in
  let object := fst (replaceRegex "z" object (to_string (zoom_ l))) in
  object.

Definition cachedNameForTile (x y z : Z) : string :=
  "x" ++ to_string x ++ "_y" ++ to_string y ++ "_z" ++ to_string z ++ ".jpg".

(** [QDir::separator()] *)
Definition separator : string := "/".

Definition userAgent : string :=
  "rviz_satellite/0.0.2 (+https://github.com/gareth-cross/rviz_satellite)".

(** ** The batch orchestrator

    [QDir::cleanPath] belongs to Qt: it is a parameter.  So is what
    [MapTile::setImage] does to [reply_], the header being absent:
    [setImage_resets_reply] says whether it clears it. *)

Section Orchestrator.

Variable cleanPath : string -> string.
Variable setImage_resets_reply : bool.

Definition cachedPathForTile (l : TileLoader) (x y z : Z) : string :=
  cleanPath (cache_path_ l ++ separator ++ cachedNameForTile x y z).

Definition setImage (t : MapTile) (image : QImage) : MapTile :=
  mkMapTile (x_ t) (y_ t) (z_ t)
    (if setImage_resets_reply then None else reply_ t) image.

Definition maxTiles (l : TileLoader) : Z := int_sub (int_shl1 (zoom_ l)) 1.

Definition abort (l : TileLoader) : TileLoader :=
  set_qnam (set_tiles l []) None (next_reply l).

(** [emit finishedLoading] when every tile has an image. *)
Definition checkIfLoadingComplete (l : TileLoader) : bool * list event :=
  let loaded := forallb hasImage (tiles_ l) in
  (loaded, if loaded then [finishedLoading] else []).

(** [qnam_->get(request)]: the request is sent and a new reply returned. *)
Definition manager_get (m : QNetworkAccessManager) (next : handle)
    (r : QNetworkRequest) : QNetworkAccessManager * handle :=
  (mkManager (useSystemConfiguration m) (proxy m)
     (requests m ++ [(next, r)])%list,
   next).

(** What the loops of [start] change. *)
Record loading : Type := mkLoading {
  ld_qnam : QNetworkAccessManager;
  ld_tiles : list MapTile;
  ld_next : handle;
  ld_events : list event
}.

(** The body of the inner loop, for the tile [(x, y)].  [disk] gives, for a
    path, the image [QImage(path)] loads when the file exists. *)
Definition load_tile (disk : string -> option QImage) (l : TileLoader)
    (st : loading) (xy : Z * Z) : loading :=
  let '(x, y) := xy in
  let full_path := cachedPathForTile l x y (zoom_ l) in
  match disk full_path with
  | Some image =>
      mkLoading (ld_qnam st)
        (ld_tiles st ++ [MapTile_image x y (zoom_ l) image])%list
        (ld_next st) (ld_events st)
  | None =>
      if negb (offline_mode_ l) then
        let uri := uriForTile l x y in
        let request := mkRequest uri [("User-Agent", userAgent)] in
        let '(m, rep) := manager_get (ld_qnam st) (ld_next st) request in
        mkLoading m
          (ld_tiles st ++ [MapTile_reply x y (zoom_ l) rep])%list
          (S rep) (ld_events st ++ [initiatedRequest request])%list
      else st
  end.

(** The tiles visited: [y] in the outer loop, [x] in the inner one. *)
Definition rectangle (l : TileLoader) : list (Z * Z) :=
  let min_x := Z.max 0 (int_sub (center_tile_x_ l) (blocks_ l)) in
  let min_y := Z.max 0 (int_sub (center_tile_y_ l) (blocks_ l)) in
  let max_x := Z.min (maxTiles l) (int_add (center_tile_x_ l) (blocks_ l)) in
  let max_y := Z.min (maxTiles l) (int_add (center_tile_y_ l) (blocks_ l)) in
  flat_map (fun y => map (fun x => (x, y)) (for_range min_x max_x))
    (for_range min_y max_y).

(** The manager [start] creates, with the proxy applied or not. *)
Definition new_manager (l : TileLoader) : QNetworkAccessManager :=
  if negb (isEmpty (hostName (localhostProxy l))) then
    mkManager false (Some (localhostProxy l)) []
  else mkManager true None [].

Definition start (disk : string -> option QImage) (l : TileLoader)
  : TileLoader * list event :=
  let l := abort l in
  let st :=
    fold_left (load_tile disk l) (rectangle l)
      (mkLoading (new_manager l) (tiles_ l) (next_reply l) []) in
  let l :=
    set_qnam (set_tiles l (ld_tiles st)) (Some (ld_qnam st)) (ld_next st) in
  let '(_, ev) := checkIfLoadingComplete l in
  (l, (ld_events st ++ ev)%list).

Definition redirectUrl (possibleRedirectUrl oldRedirectUrl : QUrl) : QUrl :=
  if negb (isEmpty possibleRedirectUrl)
     && negb (String.eqb possibleRedirectUrl oldRedirectUrl)
  then possibleRedirectUrl
  else "".

(** [std::find_if]: the offset of the first element satisfying [p]. *)
Fixpoint find_if {A : Type} (p : A -> bool) (ts : list A) : option nat :=
  match ts with
  | [] => None
  | t :: ts' => if p t then Some O else option_map S (find_if p ts')
  end.

(** The element at an offset, changed in place. *)
Fixpoint update_at {A : Type} (i : nat) (f : A -> A) (ts : list A) : list A :=
  match ts, i with
  | [], _ => []
  | t :: ts', O => f t :: ts'
  | t :: ts', S i' => t :: update_at i' f ts'
  end.

(** The slot connected to the manager's [finished] signal.  [None]: the
    null [qnam_] is dereferenced. *)
Definition finishedRequest (l : TileLoader) (reply : QNetworkReply)
  : option (TileLoader * list event) :=
  let request := request reply in
  let possibleRedirectUrl := redirectionTarget reply in
  let l := set_urlRedirectedTo l
             (redirectUrl possibleRedirectUrl (urlRedirectedTo l)) in
  if negb (isEmpty (urlRedirectedTo l)) then
    let text := "QNAMRedirect::replyFinished: Redirected to "
                ++ urlRedirectedTo l in
    match qnam_ l with
    | None => None
    | Some m =>
        let '(m, rep) :=
          manager_get m (next_reply l) (mkRequest (urlRedirectedTo l) []) in
        Some (set_qnam l (Some m) (S rep), [warnOcurred text])
    end
  else
    match find_if (has_reply (reply_id reply)) (tiles_ l) with
    | None => Some (l, [])
    | Some it =>
        let '(ts, ev) :=
          if error reply =? NoError then
            if canRead reply then
              let image := read reply in
              (update_at it (fun tile => setImage tile image) (tiles_ l),
               match nth_error (tiles_ l) it with
               | Some tile =>
                   [image_save
                      (cachedPathForTile l (x_ tile) (y_ tile) (z_ tile))
                      image;
                    receivedImage request]
               | None => []
               end)
            else
              (tiles_ l,
               [errorOcurred ("Unable to decode image at " ++ url request)])
          else
            (tiles_ l,
             [errorOcurred ("Failed loading " ++ url request
                            ++ " with code " ++ to_string (error reply))]) in
        let l := set_tiles l ts in
        let '(_, ev') := checkIfLoadingComplete l in
        Some (l, (ev ++ ev')%list)
    end.

(** The replies of a list finish one after the other. *)
Fixpoint deliver (l : TileLoader) (replies : list QNetworkReply)
  : option (TileLoader * list event) :=
  match replies with
  | [] => Some (l, [])
  | r :: replies' =>
      match finishedRequest l r with
      | None => None
      | Some (l', ev) =>
          match deliver l' replies' with
          | None => None
          | Some (l'', ev') => Some (l'', (ev ++ ev')%list)
          end
      end
  end.

End Orchestrator.

(** ** Auxiliary predicates on strings *)

(** The characters of a decimal numeral: a digit or the minus sign. *)
Definition numeral_char (c : ascii) : bool :=
  let n := nat_of_ascii c in
  ((48 <=? n)%nat && (n <=? 57)%nat) || (n =? 45)%nat.

Fixpoint string_forall (p : ascii -> bool) (s : string) : bool :=
  match s with
  | EmptyString => true
  | String c s' => p c && string_forall p s'
  end.

(** ** The loops of [start] in closed form

    What the two loops add, tile by tile, when the first new reply gets the
    identity [next]: the records, and the requests sent with their replies.
    [fold_load_tile] below shows that the loops compute exactly these. *)

Section ClosedForm.

Variable cleanPath : string -> string.
Variable disk : string -> option QImage.
Variable l : TileLoader.

(** The cache file of the tile exists. *)
Definition cached (xy : Z * Z) : bool :=
  match disk (cachedPathForTile cleanPath l (fst xy) (snd xy) (zoom_ l)) with
  | Some _ => true
  | None => false
  end.

(** The tile gets a record. *)
Definition recorded (xy : Z * Z) : bool := cached xy || negb (offline_mode_ l).

Fixpoint loaded_tiles (next : handle) (coords : list (Z * Z)) : list MapTile :=
  match coords with
  | [] => []
  | (x, y) :: coords' =>
      match disk (cachedPathForTile cleanPath l x y (zoom_ l)) with
      | Some image =>
          MapTile_image x y (zoom_ l) image :: loaded_tiles next coords'
      | None =>
          if negb (offline_mode_ l) then
            MapTile_reply x y (zoom_ l) next :: loaded_tiles (S next) coords'
          else loaded_tiles next coords'
      end
  end.

Fixpoint sent_requests (next : handle) (coords : list (Z * Z))
  : list (handle * QNetworkRequest) :=
  match coords with
  | [] => []
  | (x, y) :: coords' =>
      match disk (cachedPathForTile cleanPath l x y (zoom_ l)) with
      | Some image => sent_requests next coords'
      | None =>
          if negb (offline_mode_ l) then
            (next, mkRequest (uriForTile l x y) [("User-Agent", userAgent)])
            :: sent_requests (S next) coords'
          else sent_requests next coords'
      end
  end.

(** Every cache file among [coords] loads as an image. *)
Definition cache_decodes (coords : list (Z * Z)) : Prop :=
  forall x y image,
    In (x, y) coords ->
    disk (cachedPathForTile cleanPath l x y (zoom_ l)) = Some image ->
    isNull image = false.

End ClosedForm.

(** ** Auxiliary definitions on records and events *)

Definition coordinates (t : MapTile) : Z * Z := (x_ t, y_ t).

(** The replies the records hold, in order. *)
Definition replies (ts : list MapTile) : list handle :=
  flat_map (fun t => match reply_ t with Some h => [h] | None => [] end) ts.

(** The replies held by records that have no image yet. *)
Definition waiting (ts : list MapTile) : list handle :=
  flat_map (fun t =>
              if hasImage t then []
              else match reply_ t with Some h => [h] | None => [] end) ts.

(** A record that has no image and no reply to bring one. *)
Definition stuck (t : MapTile) : bool :=
  negb (hasImage t) && match reply_ t with Some _ => false | None => true end.

Definition count_finishedLoading (ev : list event) : nat :=
  List.length (filter is_finishedLoading ev).

Definition count_initiatedRequest (ev : list event) : nat :=
  List.length (filter is_initiatedRequest ev).

(** A reply that finished without redirection or error and decodes to an
    image. *)
Definition successful (r : QNetworkReply) : Prop :=
  redirectionTarget r = "" /\ error r = NoError /\ canRead r = true
  /\ isNull (read r) = false.


(** The manager sends its requests through the HTTP proxy [p]. *)
Definition proxy_applied (p : QNetworkProxy) (m : option QNetworkAccessManager)
  : Prop :=
  exists manager,
    m = Some manager /\ useSystemConfiguration manager = false
    /\ proxy manager = Some p.

(** The manager uses the system's configuration, and no proxy of the
    loader's. *)
Definition system_configuration (m : option QNetworkAccessManager) : Prop :=
  exists manager,
    m = Some manager /\ useSystemConfiguration manager = true
    /\ proxy manager = None.

(** ** Sample inputs *)

(** A loader that only carries a template and a zoom level. *)
Definition loader_of_template (template : string) (z : Z) : TileLoader :=
  mkTileLoader z 0 0 0 template "" false (HttpProxy "" 0) "" [] None 0%nat.

(** A loader at zoom 2 around the tile (1, 1), one block each way: the
    rectangle is the 3 x 3 grid of the tiles 0..2. *)
Definition sample_loader (offline : bool) : TileLoader :=
  mkTileLoader 2 1 1 1 "http://x/{z}/{x}/{y}.png" "/cache/42" offline
    (HttpProxy "" 0) "" [] None 0%nat.

(** An empty cache directory, and one whose every file holds the image
    given. *)
Definition empty_disk : string -> option QImage := fun _ => None.
Definition full_disk (image : QImage) : string -> option QImage :=
  fun _ => Some image.

(** A path in clean form is left as it is by [QDir::cleanPath]. *)
Definition clean_already : string -> string := fun path => path.

(** A loader at zoom 0 (one tile), no blocks around the center. *)
Definition single_tile_loader (offline : bool) : TileLoader :=
  mkTileLoader 0 0 0 0 "http://x/{z}/{x}/{y}.png" "/cache/42" offline
    (HttpProxy "" 0) "" [] None 0%nat.

(** A loader built with the proxy specification [spec]. *)
Definition loader_with_proxy (toUInt : string -> Z) (spec : string)
  : TileLoader :=
  mkTileLoader 0 0 0 0 "http://x/{z}/{x}/{y}.png" "/cache/42" false
    (TileLoader_proxy toUInt spec) "" [] None 0%nat.

(** A cache directory that holds the center tile of [sample_loader] only. *)
Definition disk_with_center : string -> option QImage :=
  fun path =>
    if String.eqb path "/cache/42/x1_y1_z2.jpg" then Some (pixels 7) else None.

(** The reply to the request for the only tile of [single_tile_loader],
    redirected to another URL, and the reply to the request that follows the
    redirection, with an image. *)
Definition redirected_reply : QNetworkReply :=
  mkReply 0%nat (mkRequest "http://x/0/0/0.png" [("User-Agent", userAgent)])
    "http://y/0.png" NoError false null_image.

Definition followed_reply : QNetworkReply :=
  mkReply 1%nat (mkRequest "http://y/0.png" []) "" NoError true (pixels 1).


(** A loader whose batch has been started once, all tiles being fetched. *)
Definition started_loader : TileLoader :=
  fst (start clean_already empty_disk (sample_loader false)).

(** ** Auxiliary definitions on replies *)

(** The text of the error [finishedRequest] reports for a reply that brings
    no image. *)
Definition error_text (r : QNetworkReply) : string :=
  if error r =? NoError then "Unable to decode image at " ++ url (request r)
  else "Failed loading " ++ url (request r) ++ " with code "
       ++ to_string (error r).

(** A reply that finished without redirection, and either with an error or
    with a body no image can be read from. *)
Definition failed (r : QNetworkReply) : Prop :=
  redirectionTarget r = ""
  /\ (error r <> NoError \/ canRead r = false).

(** The first reply of [rs] with the identity [h]. *)
Definition reply_for (h : handle) (rs : list QNetworkReply)
  : option QNetworkReply :=
  find (fun r => Nat.eqb (reply_id r) h) rs.

(** The record [t] once the replies [rs] have finished: with the image of
    the reply it holds, if that reply is among them. *)
Definition attach (setImage_resets_reply : bool) (rs : list QNetworkReply)
    (t : MapTile) : MapTile :=
  match reply_ t with
  | Some h =>
      match reply_for h rs with
      | Some r => setImage setImage_resets_reply t (read r)
      | None => t
      end
  | None => t
  end.

(** A reply with the identity [h] that brings the image [pixels n]. *)
Definition image_reply (h : handle) (n : nat) : QNetworkReply :=
  mkReply h (mkRequest "http://x/" []) "" NoError true (pixels n).

(** The requests sent through the loader's manager so far. *)
Definition requests_of (l : TileLoader) : list (handle * QNetworkRequest) :=
  match qnam_ l with
  | Some m => requests m
  | None => []
  end.

(** How often the character [c] occurs in [s]. *)
Fixpoint count_char (c : ascii) (s : string) : nat :=
  match s with
  | EmptyString => 0
  | String a s' => (if Ascii.eqb a c then 1 else 0) + count_char c s'
  end.

(** ** Templates in pieces

    A template read as the pieces it is made of: stretches of text and
    placeholders, a brace, one character and a brace. *)

Inductive segment : Type :=
  | Text (s : string)
  | Placeholder (letter : ascii).

Fixpoint render (segs : list segment) : string :=
  match segs with
  | [] => EmptyString
  | Text s :: segs' => s ++ render segs'
  | Placeholder l :: segs' => String "{" (String l (String "}" (render segs')))
  end.

(** The letter [l] is the letter [c], in either case. *)
Definition same_letter (c l : ascii) : bool :=
  Ascii.eqb (to_lower l) (to_lower c).

(** No opening brace in the string. *)
Definition brace_free (s : string) : bool :=
  string_forall (fun a => negb (Ascii.eqb a "{")) s.

(** The text of a piece, if it is text, has no opening brace. *)
Definition plain (seg : segment) : bool :=
  match seg with
  | Text s => brace_free s
  | Placeholder _ => true
  end.

Definition is_placeholder (c : ascii) (seg : segment) : bool :=
  match seg with
  | Text _ => false
  | Placeholder l => same_letter c l
  end.

(** How many placeholders with the letter [c] there are. *)
Definition uses (c : ascii) (segs : list segment) : nat :=
  List.length (filter (is_placeholder c) segs).

(** The placeholders with the letter [c] filled in. *)
Definition fill (c : ascii) (value : string) (seg : segment) : segment :=
  if is_placeholder c seg then Text value else seg.

(** ** The constructor, [insideCentreTile] and [resolution] *)

(** [std::floor] on a finite [double], as the integer it denotes. *)
Definition floorZ (x : float) : option Z :=
  match Prim2SF x with
  | S754_zero _ => Some 0
  | S754_finite s m e =>
      let v := if s then Z.neg m else Z.pos m in
      Some (if 0 <=? e then v * 2 ^ e else v / 2 ^ (- e))
  | S754_infinity _ => None
  | S754_nan => None
  end.

(** [int i = std::floor(x)]: the conversion of a [double] to [int] is
    defined for values within [int] only. *)
Definition floor_to_int (x : float) : option Z :=
  match floorZ x with
  | Some z => if (INT_MIN <=? z) && (z <=? INT_MAX) then Some z else None
  | None => None
  end.

(** [std::floor(x) == i], the [int] converted to [double]: both sides are
    whole numbers, equal as [double]s when they are the same number. *)
Definition floor_is (x : float) (i : Z) : bool :=
  match floorZ x with
  | Some z => z =? i
  | None => false
  end.

(** The members of [TileLoader] that [start] and [finishedRequest] do not
    use, beside those they do. *)
Record TileLoader_members : Type := mkMembers {
  loader : TileLoader;
  latitude_ : float;
  longitude_ : float;
  proxy_ : string;
  origin_offset_x_ : float;
  origin_offset_y_ : float
}.

(** How the constructor ends. *)
Inductive construction : Type :=
  | Constructed (o : TileLoader_members)
  | assert_failed                        (* assert(blocks_ >= 0) *)
  | runtime_error (what : string)
  | invalid_argument (e : exception)
  | undefined_conversion.                (* a double outside int *)

Section Construction.

Variables std_log std_tan std_cos : float -> float.
(** [std::hash<std::string>], a [size_t] *)
Variable hash_fn : string -> Z.
Variable cleanPath : string -> string.
Variable toUInt : string -> Z.
(** [QDir(path).exists()] and [QDir(path).mkpath(".")] *)
Variable dir_exists : string -> bool.
Variable mkpath : string -> bool.
(** assertions are compiled out *)
Variable NDEBUG : bool.

(** [zoom] and [blocks] are [unsigned int]; [blocks_] is an [int]. *)
Definition TileLoader_new (service : string) (latitude longitude : float)
    (zoom blocks : Z) (proxy cache_base_path : string) (offline_mode : bool)
  : construction :=
  let blocks_ := wrap_int blocks in
  if negb NDEBUG && (blocks_ <? 0) then assert_failed
  else
    let cache_path_ :=
      cleanPath (cache_base_path ++ separator ++ to_string (hash_fn service)) in
    if negb (dir_exists cache_path_) && negb (mkpath cache_path_) then
      runtime_error ("Failed to create cache folder: " ++ cache_path_)
    else
      let localhostProxy := TileLoader_proxy toUInt proxy in
      match latLonToTileCoords std_log std_tan std_cos latitude longitude zoom
      with
      | Throw e => invalid_argument e
      | Return (x, y) =>
          match floor_to_int x, floor_to_int y with
          | Some center_tile_x_, Some center_tile_y_ =>
              Constructed
                (mkMembers
                   (mkTileLoader zoom blocks_ center_tile_x_ center_tile_y_
                      service cache_path_ offline_mode localhostProxy "" []
                      None 0%nat)
                   latitude longitude proxy
                   (x - double_of_int center_tile_x_)%float
                   (y - double_of_int center_tile_y_)%float)
          | _, _ => undefined_conversion
          end
      end.

Definition insideCentreTile (o : TileLoader_members) (lat lon : float)
  : outcome bool :=
  match latLonToTileCoords std_log std_tan std_cos lat lon (zoom_ (loader o))
  with
  | Throw e => Throw e
  | Return (x, y) =>
      Return (floor_is x (center_tile_x_ (loader o))
              && floor_is y (center_tile_y_ (loader o)))
  end.

Definition resolution (o : TileLoader_members) : outcome float :=
  zoomToResolution std_cos (latitude_ o) (zoom_ (loader o)).

End Construction.
(** Stand-ins for [std::log], [std::tan] and [std::cos] that are right at
    latitude 0, where [tan 0 = 0], [cos 0 = 1] and [log 1 = 0]. *)
Definition equator_log : float -> float := fun _ => 0%float.
Definition equator_tan : float -> float := fun _ => 0%float.
Definition equator_cos : float -> float := fun _ => 1%float.

(** The constructor on the equator, with a cache folder that exists. *)
Definition construct_on_equator (longitude : float) (zoom blocks : Z)
  : construction :=
  TileLoader_new equator_log equator_tan equator_cos (fun _ => 42)
    clean_already (fun _ => 0) (fun _ => true) (fun _ => false) false
    "http://x/{z}/{x}/{y}.png" 0%float longitude zoom blocks "" "/cache"
    false.

(** The members it leaves at zoom 1. *)
Definition members_on_equator (longitude : float) (blocks center_x : Z)
  : TileLoader_members :=
  mkMembers
    (mkTileLoader 1 blocks center_x 1 "http://x/{z}/{x}/{y}.png" "/cache/42"
       false (HttpProxy "" 0) "" [] None 0%nat)
    0%float longitude "" 0%float 0%float.


(** * Properties *)

(** ** Machine integers *)

Lemma wrap_int_id (z : Z) : in_int z -> wrap_int z = z.
Proof.
  unfold in_int, INT_MIN, INT_MAX, wrap_int. intros H.
  rewrite Z.mod_small; lia.
Qed.

Lemma wrap_int_range (z : Z) : in_int (wrap_int z).
Proof.
  unfold in_int, INT_MIN, INT_MAX, wrap_int.
  pose proof (Z.mod_pos_bound (z + 2 ^ 31) (2 ^ 32)). lia.
Qed.



Lemma int_shl1_pow (zoom : Z) : 0 <= zoom <= 30 -> int_shl1 zoom = 2 ^ zoom.
Proof.
  intros H. unfold int_shl1. rewrite Z.shiftl_1_l. apply wrap_int_id.
  unfold in_int, INT_MIN, INT_MAX.
  assert (0 < 2 ^ zoom) by (apply Z.pow_pos_nonneg; lia).
  assert (2 ^ zoom <= 2 ^ 30) by (apply Z.pow_le_mono_r; lia).
  lia.
Qed.

Lemma in_for_range (lo hi i : Z) : In i (for_range lo hi) <-> lo <= i <= hi.
Proof.
  unfold for_range. rewrite in_map_iff. split.
  - intros (k & <- & Hk). apply in_seq in Hk. lia.
  - intros H. exists (Z.to_nat (i - lo)). split; [lia |].
    apply in_seq. lia.
Qed.

(** ** Coordinate mapper *)

Section CoordinateMapperFacts.

Variables std_log std_tan std_cos : float -> float.

Local Abbreviation toTileCoords :=
  (latLonToTileCoords std_log std_tan std_cos).

Lemma latLonToTileCoords_zoom (lat lon : float) (zoom : Z) :
  31 < zoom ->
  toTileCoords lat lon zoom = Throw (invalid_argument_zoom zoom).
Proof.
  intros H. unfold latLonToTileCoords.
  replace (zoom >? 31) with true by (symmetry; apply Z.gtb_lt; lia).
  reflexivity.
Qed.

Lemma latLonToTileCoords_latitude (lat lon : float) (zoom : Z) :
  ((lat <? -85.0511) || (85.0511 <? lat))%float = true ->
  throws (toTileCoords lat lon zoom) = true.
Proof.
  intros H. unfold latLonToTileCoords.
  destruct (zoom >? 31); [reflexivity |]. rewrite H. reflexivity.
Qed.

Lemma latLonToTileCoords_longitude (lat lon : float) (zoom : Z) :
  ((lon <? double_of_int (-180)) || (double_of_int 180 <? lon))%float = true ->
  throws (toTileCoords lat lon zoom) = true.
Proof.
  intros H. unfold latLonToTileCoords.
  destruct (zoom >? 31); [reflexivity |].
  destruct ((lat <? -85.0511) || (85.0511 <? lat))%float; [reflexivity |].
  rewrite H. reflexivity.
Qed.

(** Inside the three ranges the conversion returns. *)
Lemma latLonToTileCoords_returns (lat lon : float) (zoom : Z) :
  zoom <= 31 ->
  ((lat <? -85.0511) || (85.0511 <? lat))%float = false ->
  ((lon <? double_of_int (-180)) || (double_of_int 180 <? lon))%float = false ->
  throws (toTileCoords lat lon zoom) = false.
Proof.
  intros Hz Hlat Hlon. unfold latLonToTileCoords.
  replace (zoom >? 31) with false
    by (symmetry; rewrite Z.gtb_ltb; apply Z.ltb_ge; lia).
  rewrite Hlat, Hlon. reflexivity.
Qed.

End CoordinateMapperFacts.

(** C2, the claim as stated fails: [zoomToResolution] returns for a latitude
    of 86 degrees (at zoom 0), whatever [std::cos] computes. *)
Lemma zoomToResolution_returns_at_86 :
  ~ (exists std_cos : float -> float,
        throws (zoomToResolution std_cos 86 0) = true).
Proof. intros [std_cos H]. discriminate H. Qed.

(** C2 (amended): [latLonToTileCoords] fails with an invalid-argument
    condition for zoom = 32, lat = 86, lat = -86, lon = 181 and lon = -181,
    whatever the other arguments are, and returns at the boundary values
    lat = 85.0511 and -85.0511, lon = 180 and -180, zoom = 31;
    [zoomToResolution] validates nothing and, for every latitude and every
    zoom level a 32-bit shift allows, returns. *)
Theorem coordinate_mapper_validation :
  forall std_log std_tan std_cos : float -> float,
    let toTileCoords := latLonToTileCoords std_log std_tan std_cos in
    (forall lat lon,
        toTileCoords lat lon 32 = Throw (invalid_argument_zoom 32))
    /\ (forall lon zoom, throws (toTileCoords 86%float lon zoom) = true)
    /\ (forall lon zoom, throws (toTileCoords (-86)%float lon zoom) = true)
    /\ (forall lat zoom, throws (toTileCoords lat 181%float zoom) = true)
    /\ (forall lat zoom, throws (toTileCoords lat (-181)%float zoom) = true)
    /\ throws (toTileCoords 85.0511%float 180%float 31) = false
    /\ throws (toTileCoords (-85.0511)%float (-180)%float 31) = false
    /\ throws (toTileCoords 85.0511%float (-180)%float 31) = false
    /\ throws (toTileCoords (-85.0511)%float 180%float 31) = false
    /\ (forall lat zoom,
           0 <= zoom <= 31 ->
           throws (zoomToResolution std_cos lat zoom) = false).
Proof.
  intros std_log std_tan std_cos toTileCoords. subst toTileCoords.
  repeat apply conj; intros.
  - apply latLonToTileCoords_zoom. lia.
  - apply latLonToTileCoords_latitude. reflexivity.
  - apply latLonToTileCoords_latitude. reflexivity.
  - apply latLonToTileCoords_longitude. reflexivity.
  - apply latLonToTileCoords_longitude. reflexivity.
  - apply latLonToTileCoords_returns; [lia | reflexivity | reflexivity].
  - apply latLonToTileCoords_returns; [lia | reflexivity | reflexivity].
  - apply latLonToTileCoords_returns; [lia | reflexivity | reflexivity].
  - apply latLonToTileCoords_returns; [lia | reflexivity | reflexivity].
  - reflexivity.
Qed.

Lemma coordinate_mapper_validation_witness :
  throws (zoomToResolution (fun lat_rad => lat_rad) 86 31) = false.
Proof.
  apply (coordinate_mapper_validation (fun x => x) (fun x => x)
           (fun lat_rad => lat_rad)).
  lia.
Defined.

(** ** URL template resolver *)

Lemma regex_search_from_bounds (c : ascii) (s : string) (end_ n i j : nat) :
  regex_search_from c s i end_ n = Some j -> (i <= j /\ j + 3 <= end_)%nat.
Proof.
  revert i. induction n as [| n IH]; intros i; simpl; [discriminate |].
  destruct ((i + 3 <=? end_)%nat && token_at c s i) eqn:E.
  - intros [= <-]. apply andb_true_iff in E as [E _].
    apply Nat.leb_le in E. lia.
  - intros H. apply IH in H. lia.
Qed.

Lemma regex_search_bounds (c : ascii) (s : string) (start end_ j : nat) :
  regex_search c s start end_ = Some j -> (start <= j /\ j + 3 <= end_)%nat.
Proof. apply regex_search_from_bounds. Qed.

(** The loop of [replaceRegex] ends by itself: each match moves [start]
    forward, and fuel beyond the length of the searched range is not used. *)
Lemma replace_loop_fuel (c : ascii) (replace : string) (end_ : nat) :
  forall (f1 f2 : nat) (str : string) (start count : nat),
    (end_ - start < f1)%nat -> (end_ - start < f2)%nat ->
    replace_loop f1 c replace str start end_ count
    = replace_loop f2 c replace str start end_ count.
Proof.
  induction f1 as [| f1 IH]; intros f2 str start count H1 H2; [lia |].
  destruct f2 as [| f2]; [lia |]. simpl.
  destruct (regex_search c str start end_) as [i |] eqn:E; [| reflexivity].
  apply regex_search_bounds in E. apply IH; lia.
Qed.

Lemma replaceRegex_fuel (c : ascii) (str replace : string) (fuel : nat) :
  (length str < fuel)%nat ->
  replace_loop fuel c replace str 0 (length str) 0 = replaceRegex c str replace.
Proof.
  intros H. unfold replaceRegex. apply replace_loop_fuel; lia.
Qed.

(** The example of the specification. *)
Example uriForTile_example :
  uriForTile (loader_of_template "http://x/{z}/{x}/{y}.png" 7) 3 5
  = "http://x/7/3/5.png".
Proof. reflexivity. Qed.

(** Upper-case placeholders are replaced as well. *)
Example uriForTile_upper_case :
  uriForTile (loader_of_template "http://x/{Z}/{X}/{Y}.png" 7) 3 5
  = "http://x/7/3/5.png".
Proof. reflexivity. Qed.

(** C6: a template that repeats a token.  After the first replacement the
    search goes on from the offset where the first match ended in the string
    as it was; the string is now two characters shorter, and the second
    [{x}], which begins one character before that offset, is not found. *)
Theorem uriForTile_repeated_token :
  uriForTile (loader_of_template "http://x/{x}/{x}.png" 7) 3 5
  = "http://x/3/{x}.png".
Proof. reflexivity. Qed.

(** When the second occurrence lies further right it is found, but replaced
    at its distance from the start of the search taken as a position in the
    string: here [{z}] is overwritten and the second [{x}] stays. *)
Example uriForTile_repeated_token_misplaced :
  uriForTile (loader_of_template "http://x/{z}/{x}/{y}.png?x={x}" 7) 3 5
  = "http://x/3/3/5.png?x={x}".
Proof. reflexivity. Qed.

(** ** Cache path resolver *)

Lemma string_of_uint_numeral (d : uint) :
  string_forall numeral_char (NilEmpty.string_of_uint d) = true.
Proof. induction d; simpl; auto. Qed.

Lemma to_string_numeral (z : Z) :
  string_forall numeral_char (to_string z) = true.
Proof.
  assert (H : forall d, string_forall numeral_char (NilZero.string_of_uint d)
                        = true).
  { intros d. unfold NilZero.string_of_uint.
    destruct d; try reflexivity; apply string_of_uint_numeral. }
  unfold to_string, NilZero.string_of_int.
  destruct (Z.to_int z) as [d | d]; [apply H |].
  change (numeral_char "-" && string_forall numeral_char
                                (NilZero.string_of_uint d) = true).
  rewrite H. reflexivity.
Qed.

Lemma to_int_not_nil (z : Z) : Z.to_int z <> Pos Nil /\ Z.to_int z <> Neg Nil.
Proof.
  destruct z as [| p | p]; simpl; split; try discriminate;
    intros [= H]; exact (DecimalPos.Unsigned.to_uint_nonnil p H).
Qed.

Lemma to_string_inj (a b : Z) : to_string a = to_string b -> a = b.
Proof.
  unfold to_string. intros H. apply to_int_inj.
  destruct (to_int_not_nil a) as [Ha1 Ha2].
  destruct (to_int_not_nil b) as [Hb1 Hb2].
  pose proof (NilZero.isi _ Ha1 Ha2) as Ea.
  pose proof (NilZero.isi _ Hb1 Hb2) as Eb.
  rewrite H in Ea. rewrite Ea in Eb. now injection Eb.
Qed.

(** Two numerals, each followed by a character that is not part of a
    numeral, are read off unambiguously. *)
Lemma numeral_prefix_inj (a a' r r' : string) (c c' : ascii) :
  string_forall numeral_char a = true ->
  string_forall numeral_char a' = true ->
  numeral_char c = false -> numeral_char c' = false ->
  (a ++ String c r)%string = (a' ++ String c' r')%string ->
  a = a' /\ r = r'.
Proof.
  revert a'. induction a as [| x a IH]; intros [| x' a'] Ha Ha' Hc Hc'; simpl.
  - intros [= _ ->]. auto.
  - intros [= -> _]. simpl in Ha'. apply andb_true_iff in Ha' as [Hx _].
    congruence.
  - intros [= -> _]. simpl in Ha. apply andb_true_iff in Ha as [Hx _].
    congruence.
  - intros [= -> E]. simpl in Ha, Ha'.
    apply andb_true_iff in Ha as [_ Ha]. apply andb_true_iff in Ha' as [_ Ha'].
    destruct (IH a' Ha Ha' Hc Hc' E) as [-> ->]. auto.
Qed.

Lemma cachedNameForTile_inj (x y z x' y' z' : Z) :
  cachedNameForTile x y z = cachedNameForTile x' y' z' ->
  x = x' /\ y = y' /\ z = z'.
Proof.
  unfold cachedNameForTile. simpl. intros [= E].
  apply numeral_prefix_inj in E as [Ex E];
    [| apply to_string_numeral | apply to_string_numeral | reflexivity ..].
  injection E as E.
  apply numeral_prefix_inj in E as [Ey E];
    [| apply to_string_numeral | apply to_string_numeral | reflexivity ..].
  injection E as E.
  apply numeral_prefix_inj in E as [Ez _];
    [| apply to_string_numeral | apply to_string_numeral | reflexivity ..].
  auto using to_string_inj.
Qed.

Lemma string_app_inv_head (p a b : string) :
  (p ++ a)%string = (p ++ b)%string -> a = b.
Proof. induction p as [| c p IH]; simpl; [auto |]. intros [= E]. auto. Qed.

(** C7: the cache path depends on the cache directory and on (x, y, z)
    alone, whatever else the loader holds; for a cache directory in clean
    form, which [QDir::cleanPath] leaves as it is once a tile's file name is
    put behind it, the path is the directory, a separator and the name
    x<x>_y<y>_z<z>.jpg; and two distinct triples give distinct paths (for
    coordinates of either sign). *)
Theorem cachedPathForTile_pure_and_injective
    (cleanPath : string -> string) (l l' : TileLoader) (x y z : Z) :
  (forall a b c,
      cleanPath (cache_path_ l ++ separator ++ cachedNameForTile a b c)
      = (cache_path_ l ++ separator ++ cachedNameForTile a b c)%string) ->
  cache_path_ l' = cache_path_ l ->
  cachedPathForTile cleanPath l' x y z = cachedPathForTile cleanPath l x y z
  /\ cachedPathForTile cleanPath l x y z
     = (cache_path_ l ++ "/"
        ++ ("x" ++ to_string x ++ "_y" ++ to_string y
            ++ "_z" ++ to_string z ++ ".jpg"))%string
  /\ forall x' y' z',
       cachedPathForTile cleanPath l x y z
       = cachedPathForTile cleanPath l x' y' z' ->
       (x, y, z) = (x', y', z').
Proof.
  intros Hclean Hdir. unfold cachedPathForTile. repeat apply conj.
  - now rewrite Hdir.
  - now rewrite Hclean.
  - intros x' y' z' E. rewrite !Hclean in E.
    apply string_app_inv_head, string_app_inv_head in E.
    apply cachedNameForTile_inj in E as (-> & -> & ->). reflexivity.
Qed.

Lemma cachedPathForTile_witness :
  cachedPathForTile (fun s => s) (sample_loader true) 3 5 7
  = cachedPathForTile (fun s => s) (sample_loader false) 3 5 7
  /\ cachedPathForTile (fun s => s) (sample_loader false) 3 5 7
     = "/cache/42/x3_y5_z7.jpg"
  /\ forall x' y' z',
       cachedPathForTile (fun s => s) (sample_loader false) 3 5 7
       = cachedPathForTile (fun s => s) (sample_loader false) x' y' z' ->
       (3, 5, 7) = (x', y', z').
Proof.
  apply (cachedPathForTile_pure_and_injective (fun s => s)
           (sample_loader false) (sample_loader true) 3 5 7);
    reflexivity.
Defined.

(** ** The loops of [start] *)

Section StartFacts.

Variable cleanPath : string -> string.
Variable disk : string -> option QImage.

Local Abbreviation load := (load_tile cleanPath disk).
Local Abbreviation tiles_from := (loaded_tiles cleanPath disk).
Local Abbreviation requests_from := (sent_requests cleanPath disk).

Lemma fold_load_tile (l : TileLoader) (coords : list (Z * Z)) :
  forall st : loading,
    fold_left (load l) coords st
    = mkLoading
        (mkManager (useSystemConfiguration (ld_qnam st)) (proxy (ld_qnam st))
           (requests (ld_qnam st) ++ requests_from l (ld_next st) coords)%list)
        (ld_tiles st ++ tiles_from l (ld_next st) coords)%list
        (ld_next st + List.length (requests_from l (ld_next st) coords))%nat
        (ld_events st
         ++ map (fun q => initiatedRequest (snd q))
              (requests_from l (ld_next st) coords))%list.
Proof.
  induction coords as [| [x y] coords IH]; intros st.
  - simpl. rewrite !app_nil_r, Nat.add_0_r. now destruct st as [[] ? ? ?].
  - cbn [fold_left]. rewrite IH. unfold load_tile.
    cbn [loaded_tiles sent_requests].
    destruct (disk (cachedPathForTile cleanPath l x y (zoom_ l))) as [image |].
    + cbn. now rewrite <- app_assoc.
    + destruct (offline_mode_ l); cbn; [reflexivity |].
      rewrite <- !app_assoc, Nat.add_succ_r. reflexivity.
Qed.

(** [abort] leaves the settings of the loader as they are. *)
Lemma tiles_from_abort (l : TileLoader) (next : handle)
    (coords : list (Z * Z)) :
  tiles_from (abort l) next coords = tiles_from l next coords.
Proof. reflexivity. Qed.

Lemma requests_from_abort (l : TileLoader) (next : handle)
    (coords : list (Z * Z)) :
  requests_from (abort l) next coords = requests_from l next coords.
Proof. reflexivity. Qed.

(** [start], with its loops in closed form. *)
Lemma start_eq (l : TileLoader) :
  let next := next_reply l in
  let ts := tiles_from l next (rectangle l) in
  let reqs := requests_from l next (rectangle l) in
  start cleanPath disk l
  = (set_qnam (set_tiles (abort l) ts)
       (Some (mkManager (useSystemConfiguration (new_manager l))
                (proxy (new_manager l)) reqs))
       (next + List.length reqs)%nat,
     (map (fun q => initiatedRequest (snd q)) reqs
      ++ (if forallb hasImage ts then [finishedLoading] else []))%list).
Proof.
  intros next ts reqs. unfold start. rewrite fold_load_tile.
  assert (E : requests (new_manager (abort l)) = []).
  { unfold new_manager.
    now destruct (negb (isEmpty (hostName (localhostProxy (abort l))))). }
  cbn [ld_qnam ld_tiles ld_next ld_events checkIfLoadingComplete].
  rewrite E. reflexivity.
Qed.

End StartFacts.

(** ** Sorted lists *)

Section SortedFacts.

Context {A : Type} (R : A -> A -> Prop).




End SortedFacts.


(** ** The rectangle of [start] *)

Lemma maxTiles_eq (l : TileLoader) :
  0 <= zoom_ l <= 31 -> maxTiles l = 2 ^ zoom_ l - 1.
Proof.
  intros H. unfold maxTiles, int_sub.
  destruct (Z.eq_dec (zoom_ l) 31) as [-> | Hne]; [reflexivity |].
  rewrite int_shl1_pow by lia. apply wrap_int_id.
  unfold in_int, INT_MIN, INT_MAX.
  assert (0 < 2 ^ zoom_ l) by (apply Z.pow_pos_nonneg; lia).
  assert (2 ^ zoom_ l <= 2 ^ 30) by (apply Z.pow_le_mono_r; lia).
  lia.
Qed.

Lemma in_rectangle (l : TileLoader) (x y : Z) :
  In (x, y) (rectangle l) <->
  Z.max 0 (int_sub (center_tile_x_ l) (blocks_ l)) <= x
    <= Z.min (maxTiles l) (int_add (center_tile_x_ l) (blocks_ l))
  /\ Z.max 0 (int_sub (center_tile_y_ l) (blocks_ l)) <= y
     <= Z.min (maxTiles l) (int_add (center_tile_y_ l) (blocks_ l)).
Proof.
  unfold rectangle. rewrite in_flat_map. split.
  - intros (y' & Hy & Hx). apply in_map_iff in Hx as (x' & [= -> ->] & Hx).
    apply in_for_range in Hx, Hy. auto.
  - intros [Hx Hy]. exists y. split; [now apply in_for_range |].
    apply (in_map (fun x' => (x', y))). now apply in_for_range.
Qed.



(** ** What the loops of [start] produce *)

Section LoopFacts.

Variable cleanPath : string -> string.
Variable disk : string -> option QImage.
Variable l : TileLoader.

Local Abbreviation path xy :=
  (cachedPathForTile cleanPath l (fst xy) (snd xy) (zoom_ l)).
Local Abbreviation tiles_from := (loaded_tiles cleanPath disk l).
Local Abbreviation requests_from := (sent_requests cleanPath disk l).
Local Abbreviation is_cached := (cached cleanPath disk l).
Local Abbreviation is_recorded := (recorded cleanPath disk l).

Lemma recorded_eq (x y : Z) :
  is_recorded (x, y)
  = match disk (cachedPathForTile cleanPath l x y (zoom_ l)) with
    | Some _ => true
    | None => negb (offline_mode_ l)
    end.
Proof.
  unfold recorded, cached. cbn [fst snd].
  now destruct (disk (cachedPathForTile cleanPath l x y (zoom_ l))).
Qed.

Lemma cached_eq (x y : Z) :
  is_cached (x, y)
  = match disk (cachedPathForTile cleanPath l x y (zoom_ l)) with
    | Some _ => true
    | None => false
    end.
Proof. reflexivity. Qed.

(** The three cases of the loop body: the file exists; it does not and the
    loader is offline; it does not and the loader is online. *)
Ltac by_cases x y :=
  cbn [loaded_tiles sent_requests filter];
  rewrite ?recorded_eq, ?cached_eq;
  destruct (disk (cachedPathForTile cleanPath l x y (zoom_ l))) as [image |];
  [| destruct (offline_mode_ l)]; simpl.

(** One record for each tile that is cached or fetched, in the order of the
    enumeration. *)
Lemma tiles_from_coordinates (next : handle) (coords : list (Z * Z)) :
  map coordinates (tiles_from next coords) = filter is_recorded coords.
Proof.
  revert next. induction coords as [| [x y] coords IH]; intros next;
    [reflexivity |].
  by_cases x y; rewrite ?IH; reflexivity.
Qed.

Lemma tiles_from_zoom (next : handle) (coords : list (Z * Z)) (t : MapTile) :
  In t (tiles_from next coords) -> z_ t = zoom_ l.
Proof.
  revert next. induction coords as [| [x y] coords IH]; intros next;
    [contradiction |].
  by_cases x y; intros H; try destruct H as [<- | H]; eauto.
Qed.

Lemma requests_from_offline (next : handle) (coords : list (Z * Z)) :
  offline_mode_ l = true -> requests_from next coords = [].
Proof.
  intros Hoff. revert next.
  induction coords as [| [x y] coords IH]; intros next; [reflexivity |].
  cbn [sent_requests]. rewrite Hoff, IH. cbn.
  now destruct (disk (cachedPathForTile cleanPath l x y (zoom_ l))).
Qed.


(** The replies created are numbered from [next] on. *)
Lemma requests_from_handles (next : handle) (coords : list (Z * Z)) :
  map fst (requests_from next coords)
  = seq next (List.length (requests_from next coords)).
Proof.
  revert next. induction coords as [| [x y] coords IH]; intros next;
    [reflexivity |].
  by_cases x y; rewrite ?IH; reflexivity.
Qed.

Lemma tiles_from_replies (next : handle) (coords : list (Z * Z)) :
  replies (tiles_from next coords) = map fst (requests_from next coords).
Proof.
  revert next. induction coords as [| [x y] coords IH]; intros next;
    [reflexivity |].
  unfold replies in *. by_cases x y; rewrite ?IH; reflexivity.
Qed.

(** Every reply held belongs to a record without image. *)
Lemma tiles_from_waiting (next : handle) (coords : list (Z * Z)) :
  waiting (tiles_from next coords) = replies (tiles_from next coords).
Proof.
  revert next. induction coords as [| [x y] coords IH]; intros next;
    [reflexivity |].
  unfold waiting, replies in *. by_cases x y; rewrite ?IH; try reflexivity.
  now destruct (hasImage _).
Qed.

End LoopFacts.

Section LoadedFacts.

Variable cleanPath : string -> string.
Variable disk : string -> option QImage.
Variable l : TileLoader.

Local Abbreviation tiles_from := (loaded_tiles cleanPath disk l).
Local Abbreviation decodes := (cache_decodes cleanPath disk l).

Lemma cache_decodes_cons (xy : Z * Z) (coords : list (Z * Z)) :
  decodes (xy :: coords) -> decodes coords.
Proof. intros H x y image Hin. apply H. now right. Qed.

(** Offline, the records are the cached tiles: all of them have an image
    exactly when every cache file decodes. *)
Lemma tiles_from_offline_loaded (next : handle) (coords : list (Z * Z)) :
  offline_mode_ l = true ->
  forallb hasImage (tiles_from next coords) = true <-> decodes coords.
Proof.
  intros Hoff. induction coords as [| [x y] coords IH].
  - split; [intros _ x y image [] | reflexivity].
  - cbn [loaded_tiles]. rewrite Hoff. cbn [negb].
    destruct (disk (cachedPathForTile cleanPath l x y (zoom_ l)))
      as [image |] eqn:E.
    + cbn [forallb]. rewrite andb_true_iff, IH. split.
      * intros [Hi Hd] x' y' image' [[= <- <-] | Hin] E'.
        -- rewrite E in E'. injection E' as <-.
           unfold hasImage in Hi. cbn in Hi. now destruct (isNull image).
        -- eapply Hd; eassumption.
      * intros Hd. split; [| eapply cache_decodes_cons; eassumption].
        unfold hasImage. cbn. rewrite (Hd x y image); auto. now left.
    + rewrite IH. split; [| apply cache_decodes_cons].
      intros Hd x' y' image' [[= <- <-] | Hin] E'; [congruence |].
      eapply Hd; eassumption.
Qed.

(** When every cache file decodes, a record without image waits for a
    reply. *)
Lemma tiles_from_not_stuck (next : handle) (coords : list (Z * Z)) :
  decodes coords -> existsb stuck (tiles_from next coords) = false.
Proof.
  revert next. induction coords as [| [x y] coords IH]; intros next Hd;
    [reflexivity |].
  pose proof (cache_decodes_cons _ _ Hd) as Hd'. cbn [loaded_tiles].
  destruct (disk (cachedPathForTile cleanPath l x y (zoom_ l)))
    as [image |] eqn:E.
  - cbn [existsb]. rewrite IH by assumption.
    unfold stuck, hasImage. cbn. rewrite (Hd x y image); auto. now left.
  - destruct (offline_mode_ l); cbn [negb existsb]; rewrite IH by assumption;
      reflexivity.
Qed.

End LoadedFacts.


Lemma count_finishedLoading_app (ev1 ev2 : list event) :
  count_finishedLoading (ev1 ++ ev2)
  = (count_finishedLoading ev1 + count_finishedLoading ev2)%nat.
Proof.
  unfold count_finishedLoading. now rewrite filter_app, length_app.
Qed.

Lemma count_finishedLoading_requests (reqs : list (handle * QNetworkRequest)) :
  count_finishedLoading (map (fun q => initiatedRequest (snd q)) reqs) = 0%nat.
Proof. induction reqs as [| q reqs IH]; [reflexivity | exact IH]. Qed.

Lemma count_initiatedRequest_requests
    (reqs : list (handle * QNetworkRequest)) :
  count_initiatedRequest (map (fun q => initiatedRequest (snd q)) reqs)
  = List.length reqs.
Proof.
  unfold count_initiatedRequest.
  induction reqs as [| q reqs IH]; simpl; [reflexivity | now rewrite IH].
Qed.

Lemma count_finishedLoading_in (ev : list event) :
  In finishedLoading ev <-> (0 < count_finishedLoading ev)%nat.
Proof.
  unfold count_finishedLoading. induction ev as [| e ev IH]; simpl.
  - split; [contradiction | lia].
  - destruct e; simpl; rewrite <- ?IH;
      try (split; [intros [H | H]; [discriminate | exact H] | auto]).
    split; [lia | auto].
Qed.

(** What [start] emits, counted. *)
Lemma start_events (cleanPath : string -> string)
    (disk : string -> option QImage) (l : TileLoader) :
  count_initiatedRequest (snd (start cleanPath disk l))
  = List.length (sent_requests cleanPath disk l (next_reply l) (rectangle l))
  /\ count_finishedLoading (snd (start cleanPath disk l))
     = if forallb hasImage (tiles_ (fst (start cleanPath disk l)))
       then 1%nat else 0%nat.
Proof.
  rewrite start_eq. cbn [fst snd tiles_ set_qnam set_tiles]. split.
  - pose proof (count_initiatedRequest_requests
        (sent_requests cleanPath disk l (next_reply l) (rectangle l))) as E.
    unfold count_initiatedRequest in *. rewrite filter_app, length_app, E.
    destruct (forallb hasImage _); apply Nat.add_0_r.
  - rewrite count_finishedLoading_app, count_finishedLoading_requests.
    now destruct (forallb hasImage _).
Qed.

(** ** Batches of the offline mode and empty batches *)

(** C10: when the enumeration of [start] leaves no record, the completion
    check holds vacuously and [finishedLoading] is emitted by [start]
    itself, once. *)
Theorem start_without_records (cleanPath : string -> string)
    (disk : string -> option QImage) (l : TileLoader) :
  tiles_ (fst (start cleanPath disk l)) = [] ->
  count_finishedLoading (snd (start cleanPath disk l)) = 1%nat
  /\ In finishedLoading (snd (start cleanPath disk l)).
Proof.
  intros E. destruct (start_events cleanPath disk l) as [_ Hc].
  rewrite E in Hc. cbn [forallb] in Hc. split; [exact Hc |].
  apply count_finishedLoading_in. rewrite Hc. lia.
Qed.

(** The example of C10: offline, with no tile of the rectangle cached. *)
Lemma start_offline_nothing_cached (cleanPath : string -> string)
    (disk : string -> option QImage) (l : TileLoader) :
  offline_mode_ l = true ->
  (forall x y, In (x, y) (rectangle l) ->
               disk (cachedPathForTile cleanPath l x y (zoom_ l)) = None) ->
  tiles_ (fst (start cleanPath disk l)) = [].
Proof.
  intros Hoff Hmiss. rewrite start_eq. cbn [fst tiles_ set_qnam set_tiles].
  generalize (next_reply l) as next.
  induction (rectangle l) as [| [x y] coords IH]; intros next; [reflexivity |].
  cbn [loaded_tiles]. rewrite Hmiss, Hoff by now left. cbn [negb].
  apply IH. intros; apply Hmiss. now right.
Qed.

Lemma start_without_records_witness :
  count_finishedLoading
    (snd (start clean_already empty_disk (single_tile_loader true))) = 1%nat
  /\ In finishedLoading
       (snd (start clean_already empty_disk (single_tile_loader true))).
Proof.
  apply (start_without_records clean_already empty_disk
           (single_tile_loader true)).
  reflexivity.
Defined.

(** C1, the claim as stated fails: offline, with the only tile of the
    rectangle missing from the cache, [start] emits [finishedLoading]. *)
Lemma offline_cache_miss_completes :
  offline_mode_ (single_tile_loader true) = true
  /\ rectangle (single_tile_loader true) = [(0, 0)]
  /\ empty_disk
       (cachedPathForTile clean_already (single_tile_loader true) 0 0 0)
     = None
  /\ In finishedLoading
       (snd (start clean_already empty_disk (single_tile_loader true))).
Proof. repeat apply conj; try reflexivity. simpl. auto. Qed.

(** C1 (amended): in offline mode [start] sends no request at all and makes
    no record for a tile that has no cache file; [finishedLoading] is
    emitted by [start] exactly when every cache file of the rectangle loads
    as an image, the missing tiles notwithstanding. *)
Theorem start_offline (cleanPath : string -> string)
    (disk : string -> option QImage) (l : TileLoader) :
  offline_mode_ l = true ->
  let l' := fst (start cleanPath disk l) in
  let ev := snd (start cleanPath disk l) in
  (exists m, qnam_ l' = Some m /\ requests m = [])
  /\ count_initiatedRequest ev = 0%nat
  /\ (forall x y,
         In (x, y) (rectangle l) ->
         disk (cachedPathForTile cleanPath l x y (zoom_ l)) = None ->
         forall t, In t (tiles_ l') -> coordinates t <> (x, y))
  /\ (In finishedLoading ev <-> cache_decodes cleanPath disk l (rectangle l)).
Proof.
  intros Hoff l' ev.
  pose proof (requests_from_offline cleanPath disk l (next_reply l)
                (rectangle l) Hoff) as Hreq.
  destruct (start_events cleanPath disk l) as [Hi Hf].
  fold ev in Hi, Hf. fold l' in Hf.
  assert (Ht : tiles_ l'
               = loaded_tiles cleanPath disk l (next_reply l) (rectangle l)).
  { unfold l'. now rewrite start_eq. }
  repeat apply conj.
  - unfold l'. rewrite start_eq. cbn. rewrite Hreq. eauto.
  - now rewrite Hi, Hreq.
  - intros x y Hin Hmiss t Hal Hxy.
    apply (in_map coordinates) in Hal.
    rewrite Ht, tiles_from_coordinates, Hxy in Hal.
    apply filter_In in Hal as [_ Hrec].
    unfold recorded, cached in Hrec. cbn [fst snd] in Hrec.
    rewrite Hmiss, Hoff in Hrec. discriminate.
  - rewrite count_finishedLoading_in, Hf, Ht. intros H.
    apply (tiles_from_offline_loaded cleanPath disk l (next_reply l)); auto.
    destruct (forallb hasImage (loaded_tiles _ _ _ _ _)); [reflexivity | lia].
  - rewrite count_finishedLoading_in, Hf, Ht. intros H.
    apply (tiles_from_offline_loaded cleanPath disk l (next_reply l)) in H;
      auto.
    rewrite H. lia.
Qed.

Lemma start_offline_witness :
  In finishedLoading
    (snd (start clean_already (full_disk (pixels 1)) (sample_loader true)))
  <-> cache_decodes clean_already (full_disk (pixels 1)) (sample_loader true)
        (rectangle (sample_loader true)).
Proof.
  apply (start_offline clean_already (full_disk (pixels 1))
           (sample_loader true)).
  reflexivity.
Defined.

(** ** The records of a batch *)




(** ** Proxy set-up *)

Lemma start_manager (cleanPath : string -> string)
    (disk : string -> option QImage) (l : TileLoader) :
  exists reqs,
    qnam_ (fst (start cleanPath disk l))
    = Some (mkManager (useSystemConfiguration (new_manager l))
              (proxy (new_manager l)) reqs).
Proof. rewrite start_eq. cbn. eauto. Qed.

Lemma isEmpty_false (s : string) : s <> "" -> isEmpty s = false.
Proof. intros H. now apply String.eqb_neq. Qed.

(** C9, the claim as stated fails: ":8080" splits into exactly two fields,
    and no proxy is applied, whatever the port field is read as. *)
Lemma empty_host_not_applied :
  List.length (split ":" ":8080") = 2%nat
  /\ ~ (exists (toUInt : string -> Z) (p : QNetworkProxy),
           proxy_applied p
             (qnam_ (fst (start clean_already empty_disk
                            (loader_with_proxy toUInt ":8080"))))).
Proof.
  split; [reflexivity |].
  intros (toUInt & p & m & Hm & Hsys & _).
  cbn in Hm. injection Hm as <-. discriminate Hsys.
Qed.

(** C9 (amended): a proxy specification that does not split into exactly
    two colon-delimited fields, or whose first field, the host, is empty,
    leaves proxying off: [start] selects the system's configuration.  With
    exactly two fields and a host that is not empty, [start] applies an HTTP
    proxy with that host, and as port the second field read by [toUInt],
    cut to 16 bits. *)
Theorem proxy_configuration (toUInt : string -> Z)
    (cleanPath : string -> string) (disk : string -> option QImage)
    (l : TileLoader) (spec : string) :
  localhostProxy l = TileLoader_proxy toUInt spec ->
  let m := qnam_ (fst (start cleanPath disk l)) in
  (List.length (split ":" spec) <> 2%nat -> system_configuration m)
  /\ (forall port_field,
         split ":" spec = [""; port_field] -> system_configuration m)
  /\ (forall host port_field,
         split ":" spec = [host; port_field] -> host <> "" ->
         proxy_applied (HttpProxy host (toUInt port_field mod 2 ^ 16)) m).
Proof.
  intros Hproxy m. subst m.
  destruct (start_manager cleanPath disk l) as [reqs ->].
  unfold new_manager. rewrite Hproxy. unfold TileLoader_proxy.
  repeat apply conj.
  - intros Hlen. apply Nat.eqb_neq in Hlen. rewrite Hlen.
    cbn. eexists. eauto.
  - intros port_field ->. cbn. eexists. eauto.
  - intros host port_field -> Hhost.
    cbn [List.length Nat.eqb nth hostName].
    rewrite (isEmpty_false _ Hhost). cbn. eexists. eauto.
Qed.

Lemma proxy_configuration_witness :
  proxy_applied (HttpProxy "localhost" (3128 mod 2 ^ 16))
    (qnam_ (fst (start clean_already empty_disk
                   (loader_with_proxy (fun _ => 3128) "localhost:3128")))).
Proof.
  refine (proj2 (proj2 (proxy_configuration (fun _ => 3128) clean_already
                          empty_disk
                          (loader_with_proxy (fun _ => 3128) "localhost:3128")
                          "localhost:3128" eq_refl))
            "localhost" "3128" eq_refl _).
  discriminate.
Defined.

(** ** Looking up the record of a reply *)

Lemma find_if_None {A : Type} (p : A -> bool) (ts : list A) :
  find_if p ts = None <-> forall t, In t ts -> p t = false.
Proof.
  induction ts as [| t ts IH]; simpl.
  - split; [intros _ t [] | reflexivity].
  - destruct (p t) eqn:E.
    + split; [discriminate |]. intros H. rewrite H in E by now left.
      discriminate.
    + destruct (find_if p ts); simpl.
      * split; [discriminate |]. intros H.
        assert (@Some nat n = None) by (apply IH; auto). discriminate.
      * split; [| reflexivity]. intros _ t' [<- | Hin]; [exact E |].
        now apply IH.
Qed.

Lemma find_if_Some {A : Type} (p : A -> bool) (ts : list A) (i : nat) :
  find_if p ts = Some i -> exists t, nth_error ts i = Some t /\ p t = true.
Proof.
  revert i. induction ts as [| t ts IH]; intros i; simpl; [discriminate |].
  destruct (p t) eqn:E.
  - intros [= <-]. exists t. auto.
  - destruct (find_if p ts) as [j |]; simpl; [| discriminate].
    intros [= <-]. apply IH. reflexivity.
Qed.

Lemma has_reply_true (h : handle) (t : MapTile) :
  has_reply h t = true <-> reply_ t = Some h.
Proof.
  unfold has_reply. destruct (reply_ t) as [h' |]; [| easy].
  rewrite Nat.eqb_eq. split; congruence.
Qed.

Lemma in_replies (h : handle) (ts : list MapTile) :
  In h (replies ts) <-> exists t, In t ts /\ reply_ t = Some h.
Proof.
  unfold replies. rewrite in_flat_map. split; intros (t & Hin & H); exists t.
  - destruct (reply_ t) as [h' |]; [| contradiction].
    destruct H as [-> | []]. auto.
  - rewrite H. simpl. auto.
Qed.


Lemma find_if_reply (h : handle) (ts : list MapTile) :
  In h (replies ts) -> exists i, find_if (has_reply h) ts = Some i.
Proof.
  intros Hin. destruct (find_if (has_reply h) ts) as [i |] eqn:E; [eauto |].
  apply in_replies in Hin as (t & Hin & Ht).
  rewrite find_if_None in E. apply has_reply_true in Ht.
  rewrite E in Ht by assumption. discriminate.
Qed.



(** ** A reply that brings an image *)

Section ReplyFacts.

Variable cleanPath : string -> string.
Variable setImage_resets_reply : bool.

Local Abbreviation set_image := (setImage setImage_resets_reply).
Local Abbreviation finished :=
  (finishedRequest cleanPath setImage_resets_reply).


Lemma replies_cons (t : MapTile) (ts : list MapTile) :
  replies (t :: ts)
  = (match reply_ t with Some h => [h] | None => [] end ++ replies ts)%list.
Proof. reflexivity. Qed.




Lemma redirectUrl_none (old : QUrl) : redirectUrl "" old = "".
Proof. reflexivity. Qed.

(** A reply without redirection whose record is found, without error and
    with a readable image. *)
Lemma finishedRequest_success (l : TileLoader) (r : QNetworkReply) (i : nat) :
  successful r ->
  find_if (has_reply (reply_id r)) (tiles_ l) = Some i ->
  let ts' := update_at i (fun tile => set_image tile (read r)) (tiles_ l) in
  exists ev,
    finished l r
    = Some (set_tiles (set_urlRedirectedTo l "") ts',
            (ev ++ (if forallb hasImage ts' then [finishedLoading]
                    else []))%list)
    /\ count_finishedLoading ev = 0%nat.
Proof.
  intros (Hred & Herr & Hread & _) Hfind ts'. unfold finishedRequest.
  rewrite Hred, redirectUrl_none.
  cbn [urlRedirectedTo set_urlRedirectedTo isEmpty String.eqb negb tiles_].
  rewrite Hfind, Herr, Hread.
  cbn [Z.eqb NoError checkIfLoadingComplete tiles_ set_tiles].
  fold ts'. destruct (find_if_Some _ _ _ Hfind) as (t & -> & _).
  eexists. split; [reflexivity | reflexivity].
Qed.

(** A reply without redirection that no record holds is dropped. *)
Lemma finishedRequest_unknown (l : TileLoader) (r : QNetworkReply) :
  redirectionTarget r = "" ->
  find_if (has_reply (reply_id r)) (tiles_ l) = None ->
  finished l r = Some (set_urlRedirectedTo l "", []).
Proof.
  intros Hred Hfind. unfold finishedRequest.
  rewrite Hred, redirectUrl_none.
  cbn [urlRedirectedTo set_urlRedirectedTo isEmpty String.eqb negb tiles_].
  now rewrite Hfind.
Qed.

End ReplyFacts.

(** ** A batch whose replies all bring an image *)

Section BatchFacts.

Variable cleanPath : string -> string.
Variable setImage_resets_reply : bool.

Local Abbreviation delivered := (deliver cleanPath setImage_resets_reply).



End BatchFacts.

(** The state [start] leaves when every cache file decodes: the replies the
    records hold are those of the requests sent, all different and all
    waited for, and no record is stuck. *)
Lemma start_waiting (cleanPath : string -> string)
    (disk : string -> option QImage) (l : TileLoader) :
  let l' := fst (start cleanPath disk l) in
  let reqs := sent_requests cleanPath disk l (next_reply l) (rectangle l) in
  (exists m, qnam_ l' = Some m /\ requests m = reqs)
  /\ waiting (tiles_ l') = map fst reqs
  /\ replies (tiles_ l') = map fst reqs
  /\ NoDup (replies (tiles_ l'))
  /\ (cache_decodes cleanPath disk l (rectangle l) ->
      existsb stuck (tiles_ l') = false).
Proof.
  intros l' reqs.
  assert (Ht : tiles_ l'
               = loaded_tiles cleanPath disk l (next_reply l) (rectangle l)).
  { unfold l'. now rewrite start_eq. }
  rewrite Ht, tiles_from_waiting, tiles_from_replies. repeat apply conj.
  - unfold l'. rewrite start_eq. cbn. eauto.
  - reflexivity.
  - reflexivity.
  - rewrite requests_from_handles. apply seq_NoDup.
  - apply tiles_from_not_stuck.
Qed.




(** ** Replies that no record holds, and redirections *)

Section StaleFacts.

Variable cleanPath : string -> string.
Variable setImage_resets_reply : bool.

Local Abbreviation finished :=
  (finishedRequest cleanPath setImage_resets_reply).


(** A redirection to a target other than the one kept from the reply
    before: one request to the target is sent, with a new reply, and the
    records stay as they are, the record of the redirected reply with
    them. *)
Lemma finishedRequest_redirected (l : TileLoader) (r : QNetworkReply)
    (m : QNetworkAccessManager) :
  qnam_ l = Some m ->
  redirectionTarget r <> "" ->
  redirectionTarget r <> urlRedirectedTo l ->
  exists l',
    finished l r
    = Some (l', [warnOcurred ("QNAMRedirect::replyFinished: Redirected to "
                              ++ redirectionTarget r)])
    /\ qnam_ l'
       = Some (mkManager (useSystemConfiguration m) (proxy m)
                 (requests m
                  ++ [(next_reply l, mkRequest (redirectionTarget r) [])]))
    /\ tiles_ l' = tiles_ l
    /\ urlRedirectedTo l' = redirectionTarget r.
Proof.
  intros Hm Hne Hnew. unfold finishedRequest, redirectUrl.
  rewrite (isEmpty_false _ Hne).
  apply String.eqb_neq in Hnew. rewrite Hnew.
  cbn [negb andb urlRedirectedTo set_urlRedirectedTo qnam_].
  rewrite (isEmpty_false _ Hne), Hm. cbn. eauto.
Qed.

(** A redirection to the target kept from the reply before is not
    followed: no request is sent. *)
Lemma finishedRequest_redirect_loop (l l' : TileLoader) (r : QNetworkReply)
    (ev : list event) :
  redirectionTarget r = urlRedirectedTo l ->
  finished l r = Some (l', ev) ->
  qnam_ l' = qnam_ l /\ next_reply l' = next_reply l /\ urlRedirectedTo l' = "".
Proof.
  intros Hsame. unfold finishedRequest, redirectUrl.
  rewrite Hsame, String.eqb_refl, andb_false_r.
  cbn [negb urlRedirectedTo set_urlRedirectedTo isEmpty String.eqb tiles_].
  destruct (find_if _ _) as [i |].
  - destruct (if error r =? NoError then _ else _) as [ts ev0].
    cbn. intros [= <- _]. auto.
  - intros [= <- _]. auto.
Qed.

End StaleFacts.

(** C3: the only tile of the batch is being fetched by the reply 0, which
    finishes with a redirection.  One request to the target is sent, and
    its reply is 1, but the record keeps the reply 0: when the reply 1
    finishes with an image, no record is found for it, the image is dropped
    and the batch does not complete.  ([start], for a tile it fetches, does
    put the reply of [get] into the record.) *)
Theorem redirected_reply_not_attached :
  forall setImage_resets_reply : bool,
    let finished := finishedRequest clean_already setImage_resets_reply in
    let l1 := fst (start clean_already empty_disk (single_tile_loader false)) in
    tiles_ l1 = [MapTile_reply 0 0 0 0%nat]
    /\ exists l2 l3 m,
        finished l1 redirected_reply
        = Some (l2,
                [warnOcurred ("QNAMRedirect::replyFinished: Redirected to "
                              ++ "http://y/0.png")])
        /\ qnam_ l2 = Some m
        /\ map fst (requests m) = [0%nat; 1%nat]
        /\ nth_error (requests m) 1%nat
           = Some (1%nat, mkRequest "http://y/0.png" [])
        /\ tiles_ l2 = [MapTile_reply 0 0 0 0%nat]
        /\ finished l2 followed_reply = Some (l3, [])
        /\ tiles_ l3 = [MapTile_reply 0 0 0 0%nat]
        /\ forallb hasImage (tiles_ l3) = false.
Proof.
  intros flag finished l1. split; [reflexivity |].
  do 3 eexists. repeat apply conj; reflexivity.
Qed.

(** ** Starting again *)

Lemma start_abort (cleanPath : string -> string)
    (disk : string -> option QImage) (l : TileLoader) :
  start cleanPath disk l = start cleanPath disk (abort l).
Proof. reflexivity. Qed.



(** * Further properties *)

(** ** Records that never get an image *)

Section BlockedFacts.

Variable cleanPath : string -> string.
Variable setImage_resets_reply : bool.

Local Abbreviation finished :=
  (finishedRequest cleanPath setImage_resets_reply).
Local Abbreviation delivered := (deliver cleanPath setImage_resets_reply).

Lemma in_update_at_other {A : Type} (p : A -> bool) (f : A -> A)
    (ts : list A) (t : A) :
  forall i,
    find_if p ts = Some i -> p t = false -> In t ts ->
    In t (update_at i f ts).
Proof.
  induction ts as [| a ts IH]; intros i; [discriminate |]. cbn [find_if].
  destruct (p a) eqn:E.
  - intros [= <-] Ht [-> | Hin]; [congruence |]. now right.
  - destruct (find_if p ts) as [j |]; [| discriminate].
    intros [= <-] Ht [-> | Hin]; cbn [update_at]; [now left |].
    right. now apply IH.
Qed.

Lemma forallb_hasImage_false (ts : list MapTile) (t : MapTile) :
  In t ts -> hasImage t = false -> forallb hasImage ts = false.
Proof.
  intros Hin Ht. destruct (forallb hasImage ts) eqn:E; [| reflexivity].
  rewrite forallb_forall in E. rewrite E in Ht by assumption. discriminate.
Qed.

(** A reply that is not the one a record without image holds leaves that
    record as it is, and with it the batch incomplete. *)
Lemma finishedRequest_keeps_imageless (l l' : TileLoader) (r : QNetworkReply)
    (ev : list event) (t : MapTile) :
  In t (tiles_ l) -> hasImage t = false ->
  has_reply (reply_id r) t = false ->
  finished l r = Some (l', ev) ->
  In t (tiles_ l') /\ count_finishedLoading ev = 0%nat.
Proof.
  intros Hin Ht Hr. unfold finishedRequest.
  cbn [urlRedirectedTo set_urlRedirectedTo qnam_ tiles_].
  destruct (negb (isEmpty (redirectUrl _ _))).
  - destruct (qnam_ l) as [m |]; [| discriminate]. cbn.
    intros [= <- <-]. auto.
  - destruct (find_if _ _) as [i |] eqn:Ei; [| intros [= <- <-]; auto].
    set (ts' := update_at i _ (tiles_ l)).
    assert (Hin' : In t ts') by (eapply in_update_at_other; eassumption).
    pose proof (forallb_hasImage_false _ _ Hin' Ht) as Hno'.
    pose proof (forallb_hasImage_false _ _ Hin Ht) as Hno.
    destruct (error r =? NoError); [destruct (canRead r) |];
      cbn [checkIfLoadingComplete tiles_ set_tiles];
      rewrite ?Hno', ?Hno; intros [= <- <-]; cbn [tiles_ set_tiles];
      (split; [assumption |]);
      try destruct (nth_error (tiles_ l) i); reflexivity.
Qed.

Lemma deliver_keeps_imageless (rs : list QNetworkReply) (t : MapTile) :
  forall (l l' : TileLoader) (ev : list event),
    In t (tiles_ l) -> hasImage t = false ->
    (forall r, In r rs -> has_reply (reply_id r) t = false) ->
    delivered l rs = Some (l', ev) ->
    In t (tiles_ l') /\ count_finishedLoading ev = 0%nat.
Proof.
  induction rs as [| r rs IH]; intros l l' ev Hin Ht Hrs; cbn [deliver].
  - intros [= <- <-]. auto.
  - destruct (finished l r) as [[l1 ev1] |] eqn:E1; [| discriminate].
    destruct (delivered l1 rs) as [[l2 ev2] |] eqn:E2; [| discriminate].
    intros [= <- <-].
    destruct (finishedRequest_keeps_imageless l l1 r ev1 t Hin Ht)
      as [Hin1 Hev1]; [apply Hrs; now left | assumption |].
    destruct (IH l1 l2 ev2 Hin1 Ht) as [Hin2 Hev2];
      [intros; apply Hrs; now right | assumption |].
    rewrite count_finishedLoading_app, Hev1, Hev2. auto.
Qed.

End BlockedFacts.

Lemma cached_tile_recorded (cleanPath : string -> string)
    (disk : string -> option QImage) (l : TileLoader) (x y : Z)
    (image : QImage) (coords : list (Z * Z)) :
  forall next,
    In (x, y) coords ->
    disk (cachedPathForTile cleanPath l x y (zoom_ l)) = Some image ->
    In (MapTile_image x y (zoom_ l) image)
       (loaded_tiles cleanPath disk l next coords).
Proof.
  induction coords as [| [x' y'] coords IH]; intros next; [contradiction |].
  intros [[= -> ->] | Hin] Hdisk; cbn [loaded_tiles].
  - rewrite Hdisk. now left.
  - destruct (disk (cachedPathForTile cleanPath l x' y' (zoom_ l)));
      [right | destruct (negb (offline_mode_ l)); [right |]]; now apply IH.
Qed.

(** X1: a reply of the batch that finishes with a transport error, or with
    a body that is no image, is reported by one [errorOcurred] and changes
    no record; the record that held it has no image and is never asked for
    again, so whatever other replies finish afterwards, [finishedLoading]
    is not emitted: the batch stays incomplete until the next [start]. *)
Theorem failed_reply_blocks_completion (cleanPath : string -> string)
    (setImage_resets_reply : bool) (l : TileLoader) (r : QNetworkReply)
    (t : MapTile) :
  In t (tiles_ l) -> hasImage t = false -> reply_ t = Some (reply_id r) ->
  failed r ->
  exists l1,
    finishedRequest cleanPath setImage_resets_reply l r
    = Some (l1, [errorOcurred (error_text r)])
    /\ tiles_ l1 = tiles_ l
    /\ forall rs l2 ev,
         (forall r', In r' rs -> reply_id r' <> reply_id r) ->
         deliver cleanPath setImage_resets_reply l1 rs = Some (l2, ev) ->
         count_finishedLoading ev = 0%nat /\ In t (tiles_ l2).
Proof.
  intros Hin Ht Hreply (Hred & Hfail).
  assert (Hheld : In (reply_id r) (replies (tiles_ l)))
    by (apply in_replies; eauto).
  destruct (find_if_reply _ _ Hheld) as [i Hi].
  pose proof (forallb_hasImage_false _ _ Hin Ht) as Hno.
  assert (Hfin : finishedRequest cleanPath setImage_resets_reply l r
                 = Some (set_tiles (set_urlRedirectedTo l "") (tiles_ l),
                         [errorOcurred (error_text r)])).
  { unfold finishedRequest, error_text. rewrite Hred, redirectUrl_none.
    cbn [urlRedirectedTo set_urlRedirectedTo isEmpty String.eqb negb tiles_].
    rewrite Hi. destruct (error r =? NoError) eqn:Eerr.
    - destruct Hfail as [Herr | Hread];
        [apply Z.eqb_eq in Eerr; contradiction |].
      rewrite Hread. cbn [checkIfLoadingComplete tiles_ set_tiles].
      now rewrite Hno.
    - cbn [checkIfLoadingComplete tiles_ set_tiles]. now rewrite Hno. }
  eexists. split; [exact Hfin |]. split; [reflexivity |].
  intros rs l2 ev Hrs Hdel. apply and_comm.
  eapply (deliver_keeps_imageless cleanPath setImage_resets_reply rs t);
    [| exact Ht | | exact Hdel]; [exact Hin |].
  intros r' Hr'. unfold has_reply. rewrite Hreply.
  apply Nat.eqb_neq. intros E. now apply (Hrs r' Hr').
Qed.

Lemma failed_reply_blocks_completion_witness :
  exists l1,
    finishedRequest clean_already false started_loader
      (mkReply 4%nat (mkRequest "http://x/2/1/1.png" []) "" 203 false
         null_image)
    = Some (l1, [errorOcurred
                   "Failed loading http://x/2/1/1.png with code 203"])
    /\ tiles_ l1 = tiles_ started_loader.
Proof.
  destruct (failed_reply_blocks_completion clean_already false started_loader
              (mkReply 4%nat (mkRequest "http://x/2/1/1.png" []) "" 203 false
                 null_image)
              (MapTile_reply 1 1 2 4%nat))
    as (l1 & Hfin & Htiles & _).
  - vm_compute. tauto.
  - reflexivity.
  - reflexivity.
  - split; [reflexivity | left; discriminate].
  - exists l1. split; [exact Hfin | exact Htiles].
Defined.

(** X2: a cache file of the rectangle that exists and does not load as an
    image gives a record without image and without reply: [start] does not
    emit [finishedLoading], and no replies whatsoever bring it later. *)
Theorem undecodable_cache_file_blocks_batch (cleanPath : string -> string)
    (setImage_resets_reply : bool) (disk : string -> option QImage)
    (l : TileLoader) (x y : Z) (image : QImage) :
  In (x, y) (rectangle l) ->
  disk (cachedPathForTile cleanPath l x y (zoom_ l)) = Some image ->
  isNull image = true ->
  count_finishedLoading (snd (start cleanPath disk l)) = 0%nat
  /\ forall rs l' ev,
       deliver cleanPath setImage_resets_reply (fst (start cleanPath disk l)) rs
       = Some (l', ev) ->
       count_finishedLoading ev = 0%nat.
Proof.
  intros Hin Hdisk Hnull.
  set (t := MapTile_image x y (zoom_ l) image).
  assert (Ht : hasImage t = false) by (unfold hasImage; cbn; now rewrite Hnull).
  assert (Hrec : In t (tiles_ (fst (start cleanPath disk l)))).
  { rewrite start_eq. cbn [fst tiles_ set_qnam set_tiles].
    now apply cached_tile_recorded. }
  split.
  - destruct (start_events cleanPath disk l) as [_ ->].
    now rewrite (forallb_hasImage_false _ _ Hrec Ht).
  - intros rs l' ev Hdel.
    eapply (deliver_keeps_imageless cleanPath setImage_resets_reply rs t);
      [exact Hrec | exact Ht | reflexivity | exact Hdel].
Qed.

Lemma undecodable_cache_file_blocks_batch_witness :
  count_finishedLoading
    (snd (start clean_already (full_disk null_image) (sample_loader false)))
  = 0%nat.
Proof.
  apply (undecodable_cache_file_blocks_batch clean_already false
           (full_disk null_image) (sample_loader false) 1 1 null_image).
  - vm_compute. tauto.
  - reflexivity.
  - reflexivity.
Defined.

(** ** The order in which replies finish *)

Section OrderFacts.

Variable cleanPath : string -> string.
Variable setImage_resets_reply : bool.

Local Abbreviation set_image := (setImage setImage_resets_reply).
Local Abbreviation delivered := (deliver cleanPath setImage_resets_reply).
Local Abbreviation attached := (attach setImage_resets_reply).

(** Replies being held once each, the record [find_if] finds is the only
    one that holds the reply. *)
Lemma update_at_found (h : handle) (f : MapTile -> MapTile)
    (ts : list MapTile) :
  forall i,
    NoDup (replies ts) ->
    find_if (has_reply h) ts = Some i ->
    update_at i f ts = map (fun t => if has_reply h t then f t else t) ts.
Proof.
  induction ts as [| t ts IH]; intros i Hnd; [discriminate |].
  cbn [find_if map]. rewrite replies_cons in Hnd.
  destruct (has_reply h t) eqn:E.
  - intros [= <-]. cbn [update_at]. f_equal.
    apply has_reply_true in E. rewrite E in Hnd. cbn [app] in Hnd.
    apply NoDup_cons_iff in Hnd as [Hh _].
    rewrite <- (map_id ts) at 1. apply map_ext_in. intros t' Hin.
    destruct (has_reply h t') eqn:E'; [| reflexivity].
    exfalso. apply Hh, in_replies. exists t'. split; [assumption |].
    now apply has_reply_true.
  - destruct (find_if (has_reply h) ts) as [j |]; [| discriminate].
    intros [= <-]. cbn [update_at]. f_equal.
    apply IH; [| reflexivity]. exact (NoDup_app_remove_l _ _ Hnd).
Qed.

Lemma replies_map_incl (g : MapTile -> MapTile) (ts : list MapTile) :
  (forall t, reply_ (g t) = reply_ t \/ reply_ (g t) = None) ->
  NoDup (replies ts) ->
  NoDup (replies (map g ts)) /\ incl (replies (map g ts)) (replies ts).
Proof.
  intros Hg. induction ts as [| t ts IH]; intros Hnd.
  - split; [constructor | apply incl_refl].
  - cbn [map]. rewrite !replies_cons in *.
    destruct (IH (NoDup_app_remove_l _ _ Hnd)) as [Hnd' Hincl].
    destruct (Hg t) as [-> | ->].
    + split; [| apply incl_app_app; [apply incl_refl | exact Hincl]].
      destruct (reply_ t) as [h |]; [| exact Hnd']. cbn [app] in *.
      apply NoDup_cons_iff in Hnd as [Hh _]. constructor; auto.
    + split; [exact Hnd' | now apply incl_appr].
Qed.

Lemma reply_for_None (h : handle) (rs : list QNetworkReply) :
  ~ In h (map reply_id rs) -> reply_for h rs = None.
Proof.
  unfold reply_for. induction rs as [| r rs IH]; [reflexivity |].
  cbn [map find]. intros Hnot.
  destruct (Nat.eqb_spec (reply_id r) h) as [E | _].
  - exfalso. apply Hnot. now left.
  - apply IH. intros Hin. apply Hnot. now right.
Qed.

Lemma reply_for_Some (r : QNetworkReply) (rs : list QNetworkReply) :
  NoDup (map reply_id rs) -> In r rs -> reply_for (reply_id r) rs = Some r.
Proof.
  unfold reply_for. induction rs as [| r' rs IH]; [contradiction |].
  cbn [map find]. intros Hnd Hin. apply NoDup_cons_iff in Hnd as [Hr' Hnd].
  destruct (Nat.eqb_spec (reply_id r') (reply_id r)) as [E | Hne].
  - destruct Hin as [-> | Hin]; [reflexivity |].
    exfalso. apply Hr'. rewrite E. now apply in_map.
  - destruct Hin as [-> | Hin]; [congruence |]. now apply IH.
Qed.

Lemma reply_for_permutation (h : handle) (rs rs' : list QNetworkReply) :
  NoDup (map reply_id rs) -> Permutation rs rs' ->
  reply_for h rs = reply_for h rs'.
Proof.
  intros Hnd Hperm.
  assert (Hnd' : NoDup (map reply_id rs'))
    by (eapply Permutation_NoDup; [apply Permutation_map; eassumption
                                  | assumption]).
  destruct (in_dec Nat.eq_dec h (map reply_id rs)) as [Hin | Hnot].
  - apply in_map_iff in Hin as (r & <- & Hin).
    rewrite (reply_for_Some r rs Hnd Hin).
    symmetry. apply reply_for_Some; [assumption |].
    eapply Permutation_in; eassumption.
  - rewrite (reply_for_None h rs Hnot). symmetry. apply reply_for_None.
    intros Hin. apply Hnot.
    eapply Permutation_in; [| exact Hin].
    apply Permutation_sym, Permutation_map. exact Hperm.
Qed.

(** The records after replies that each bring a readable body, whatever
    their order: each record with the image of the reply it held. *)
Lemma deliver_tiles (rs : list QNetworkReply) :
  forall l : TileLoader,
    NoDup (replies (tiles_ l)) ->
    NoDup (map reply_id rs) ->
    Forall successful rs ->
    exists l' ev,
      delivered l rs = Some (l', ev)
      /\ tiles_ l' = map (attached rs) (tiles_ l).
Proof.
  induction rs as [| r rs IH]; intros l Hnd Hids Hok.
  - exists l, []. split; [reflexivity |].
    rewrite <- (map_id (tiles_ l)) at 1. apply map_ext. intros t.
    unfold attach. now destruct (reply_ t).
  - apply Forall_cons_iff in Hok as [Hr Hok]. cbn [map] in Hids.
    apply NoDup_cons_iff in Hids as [Hfresh Hids]. cbn [deliver].
    destruct (find_if (has_reply (reply_id r)) (tiles_ l)) as [i |] eqn:Ei.
    + destruct (finishedRequest_success cleanPath setImage_resets_reply
                  l r i Hr Ei) as (ev1 & -> & _).
      rewrite (update_at_found _ _ _ i Hnd Ei).
      set (g := fun t => if has_reply (reply_id r) t
                         then set_image t (read r) else t).
      destruct (replies_map_incl g (tiles_ l)) as [Hnd' _]; [| exact Hnd |].
      { intros t. unfold g, setImage. destruct (has_reply _ t); [| now left].
        cbn [reply_]. destruct setImage_resets_reply; auto. }
      destruct (IH (set_tiles (set_urlRedirectedTo l "") (map g (tiles_ l)))
                  Hnd' Hids Hok) as (l' & ev' & -> & Htiles).
      eexists _, _. split; [reflexivity |].
      rewrite Htiles. cbn [tiles_ set_tiles]. rewrite map_map.
      apply map_ext. intros t. unfold g, attach, reply_for. cbn [find].
      destruct (has_reply (reply_id r) t) eqn:E.
      * apply has_reply_true in E. rewrite E, Nat.eqb_refl.
        unfold setImage at 1 2. cbn [reply_].
        destruct setImage_resets_reply; [reflexivity |].
        rewrite E. fold (reply_for (reply_id r) rs).
        now rewrite reply_for_None.
      * destruct (reply_ t) as [h |] eqn:Et; [| reflexivity].
        unfold has_reply in E. rewrite Et in E.
        rewrite Nat.eqb_sym in E. now rewrite E.
    + destruct Hr as (Hred & _).
      rewrite (finishedRequest_unknown cleanPath setImage_resets_reply
                 l r Hred Ei).
      destruct (IH (set_urlRedirectedTo l "") Hnd Hids Hok)
        as (l' & ev' & -> & Htiles).
      eexists _, _. split; [reflexivity |].
      rewrite Htiles. cbn [tiles_ set_urlRedirectedTo].
      apply map_ext_in. intros t Hin. unfold attach, reply_for. cbn [find].
      destruct (reply_ t) as [h |] eqn:Et; [| reflexivity].
      rewrite find_if_None in Ei. specialize (Ei t Hin).
      unfold has_reply in Ei. rewrite Et in Ei.
      rewrite Nat.eqb_sym in Ei. now rewrite Ei.
Qed.

End OrderFacts.

(** X3: replies that each bring an image may finish in any order: the
    records end up the same. *)
Theorem replies_in_any_order (cleanPath : string -> string)
    (setImage_resets_reply : bool) (l : TileLoader)
    (rs rs' : list QNetworkReply) :
  NoDup (replies (tiles_ l)) ->
  NoDup (map reply_id rs) ->
  Forall successful rs ->
  Permutation rs rs' ->
  exists l1 ev1 l2 ev2,
    deliver cleanPath setImage_resets_reply l rs = Some (l1, ev1)
    /\ deliver cleanPath setImage_resets_reply l rs' = Some (l2, ev2)
    /\ tiles_ l1 = tiles_ l2.
Proof.
  intros Hnd Hids Hok Hperm.
  assert (Hids' : NoDup (map reply_id rs'))
    by (eapply Permutation_NoDup; [apply Permutation_map; eassumption
                                  | assumption]).
  assert (Hok' : Forall successful rs').
  { rewrite Forall_forall in *. intros r Hr. apply Hok.
    eapply Permutation_in; [apply Permutation_sym |]; eassumption. }
  destruct (deliver_tiles cleanPath setImage_resets_reply rs l Hnd Hids Hok)
    as (l1 & ev1 & Hdel1 & Ht1).
  destruct (deliver_tiles cleanPath setImage_resets_reply rs' l Hnd Hids' Hok')
    as (l2 & ev2 & Hdel2 & Ht2).
  exists l1, ev1, l2, ev2. repeat apply conj; try assumption.
  rewrite Ht1, Ht2. apply map_ext. intros t. unfold attach.
  destruct (reply_ t) as [h |]; [| reflexivity].
  now rewrite (reply_for_permutation h rs rs' Hids Hperm).
Qed.

Lemma replies_in_any_order_witness :
  exists l1 ev1 l2 ev2,
    deliver clean_already false started_loader
      [image_reply 0%nat 1; image_reply 4%nat 2] = Some (l1, ev1)
    /\ deliver clean_already false started_loader
         [image_reply 4%nat 2; image_reply 0%nat 1] = Some (l2, ev2)
    /\ tiles_ l1 = tiles_ l2.
Proof.
  apply (replies_in_any_order clean_already false started_loader
           [image_reply 0%nat 1; image_reply 4%nat 2]
           [image_reply 4%nat 2; image_reply 0%nat 1]).
  - vm_compute. repeat constructor; simpl; intuition lia.
  - vm_compute. repeat constructor; simpl; intuition lia.
  - repeat constructor.
  - apply perm_swap.
Defined.

(** X4: when replies that each bring an image have finished, every record
    that held one of them has the image of that very reply, every other
    record is as it was, and the coordinates of the records are untouched. *)
Theorem reply_image_lands_on_its_record (cleanPath : string -> string)
    (setImage_resets_reply : bool) (l l' : TileLoader)
    (rs : list QNetworkReply) (ev : list event) :
  NoDup (replies (tiles_ l)) ->
  NoDup (map reply_id rs) ->
  Forall successful rs ->
  deliver cleanPath setImage_resets_reply l rs = Some (l', ev) ->
  map coordinates (tiles_ l') = map coordinates (tiles_ l)
  /\ map z_ (tiles_ l') = map z_ (tiles_ l)
  /\ (forall t r,
         In t (tiles_ l) -> In r rs -> reply_ t = Some (reply_id r) ->
         In (setImage setImage_resets_reply t (read r)) (tiles_ l'))
  /\ (forall t,
         In t (tiles_ l) ->
         (forall r, In r rs -> reply_ t <> Some (reply_id r)) ->
         In t (tiles_ l')).
Proof.
  intros Hnd Hids Hok Hdel.
  destruct (deliver_tiles cleanPath setImage_resets_reply rs l Hnd Hids Hok)
    as (l1 & ev1 & Hdel1 & Ht1).
  rewrite Hdel in Hdel1. injection Hdel1 as <- <-. rewrite Ht1.
  repeat apply conj.
  - rewrite map_map. apply map_ext. intros t. unfold attach.
    destruct (reply_ t); [| reflexivity]. now destruct (reply_for _ _).
  - rewrite map_map. apply map_ext. intros t. unfold attach.
    destruct (reply_ t); [| reflexivity]. now destruct (reply_for _ _).
  - intros t r Hin Hr Ht. apply in_map_iff. exists t. split; [| exact Hin].
    unfold attach. now rewrite Ht, (reply_for_Some r rs Hids Hr).
  - intros t Hin Hnone. apply in_map_iff. exists t. split; [| exact Hin].
    unfold attach. destruct (reply_ t) as [h |] eqn:Et; [| reflexivity].
    rewrite reply_for_None; [reflexivity |].
    intros Hh. apply in_map_iff in Hh as (r & <- & Hr).
    now apply (Hnone r Hr).
Qed.

Lemma reply_image_lands_on_its_record_witness :
  exists l' ev,
    deliver clean_already false started_loader [image_reply 4%nat 2]
    = Some (l', ev)
    /\ In (setImage false (MapTile_reply 1 1 2 4%nat) (pixels 2)) (tiles_ l').
Proof.
  destruct (deliver clean_already false started_loader [image_reply 4%nat 2])
    as [[l' ev] |] eqn:Hdel; [| vm_compute in Hdel; discriminate].
  exists l', ev. split; [reflexivity |].
  refine (proj1 (proj2 (proj2
            (reply_image_lands_on_its_record clean_already false
               started_loader l' [image_reply 4%nat 2] ev _ _ _ Hdel)))
            (MapTile_reply 1 1 2 4%nat) (image_reply 4%nat 2) _ _ _).
  - vm_compute. repeat constructor; simpl; intuition lia.
  - repeat constructor. simpl. tauto.
  - repeat constructor.
  - vm_compute. tauto.
  - now left.
  - reflexivity.
Defined.

(** ** Redirections to the same target, again and again *)

Lemma finishedRequest_not_redirected (cleanPath : string -> string)
    (setImage_resets_reply : bool) (l : TileLoader) (r : QNetworkReply) :
  redirectionTarget r = urlRedirectedTo l ->
  exists l' ev,
    finishedRequest cleanPath setImage_resets_reply l r = Some (l', ev).
Proof.
  intros Hsame. unfold finishedRequest, redirectUrl.
  rewrite Hsame, String.eqb_refl, andb_false_r.
  cbn [negb urlRedirectedTo set_urlRedirectedTo isEmpty String.eqb tiles_].
  destruct (find_if _ _) as [i |]; [| eauto].
  destruct (if error r =? NoError then _ else _) as [ts ev0]. cbn. eauto.
Qed.

(** X5: the loop guard of [redirectUrl] compares with the target of the
    reply before only, and forgets it when it declines to follow.  Of three
    replies in a row that are redirected to the same target, the first is
    followed by a request, the second is not, and the third is followed by
    a request again. *)
Theorem redirect_guard_alternates (cleanPath : string -> string)
    (setImage_resets_reply : bool) (l : TileLoader)
    (m : QNetworkAccessManager) (r1 r2 r3 : QNetworkReply) (target : QUrl) :
  qnam_ l = Some m ->
  target <> "" -> urlRedirectedTo l <> target ->
  redirectionTarget r1 = target -> redirectionTarget r2 = target ->
  redirectionTarget r3 = target ->
  let finished := finishedRequest cleanPath setImage_resets_reply in
  let follow_up := mkRequest target [] in
  exists l1 l2 l3 ev1 ev2 ev3,
    finished l r1 = Some (l1, ev1)
    /\ qnam_ l1
       = Some (mkManager (useSystemConfiguration m) (proxy m)
                 (requests m ++ [(next_reply l, follow_up)]))
    /\ finished l1 r2 = Some (l2, ev2)
    /\ qnam_ l2 = qnam_ l1
    /\ finished l2 r3 = Some (l3, ev3)
    /\ qnam_ l3
       = Some (mkManager (useSystemConfiguration m) (proxy m)
                 ((requests m ++ [(next_reply l, follow_up)])
                  ++ [(S (next_reply l), follow_up)])).
Proof.
  intros Hm Hne Hold H1 H2 H3 finished follow_up. subst finished follow_up.
  destruct (finishedRequest_redirected cleanPath setImage_resets_reply l r1 m
              Hm) as (l1 & Hf1 & Hq1 & _ & Hu1);
    [rewrite H1; exact Hne | rewrite H1; congruence |].
  rewrite H1 in Hf1, Hq1, Hu1.
  assert (Hsame : redirectionTarget r2 = urlRedirectedTo l1) by congruence.
  destruct (finishedRequest_not_redirected cleanPath setImage_resets_reply
              l1 r2 Hsame) as (l2 & ev2 & Hf2).
  destruct (finishedRequest_redirect_loop cleanPath setImage_resets_reply
              l1 l2 r2 ev2 Hsame Hf2) as (Hq2 & Hn2 & Hu2).
  assert (Hn1 : next_reply l1 = S (next_reply l)).
  { unfold finishedRequest, redirectUrl in Hf1. rewrite H1 in Hf1.
    rewrite (isEmpty_false _ Hne) in Hf1.
    assert (E : String.eqb target (urlRedirectedTo l) = false)
      by (apply String.eqb_neq; congruence).
    rewrite E in Hf1.
    cbn [negb andb urlRedirectedTo set_urlRedirectedTo qnam_] in Hf1.
    rewrite (isEmpty_false _ Hne), Hm in Hf1. cbn in Hf1.
    injection Hf1 as <-. reflexivity. }
  destruct (finishedRequest_redirected cleanPath setImage_resets_reply l2 r3
              _ (eq_trans Hq2 Hq1)) as (l3 & Hf3 & Hq3 & _);
    [rewrite H3; exact Hne | rewrite H3, Hu2; exact Hne |].
  rewrite H3 in Hf3, Hq3. cbn [requests useSystemConfiguration proxy] in Hq3.
  rewrite Hn2, Hn1 in Hq3.
  exists l1, l2, l3. do 3 eexists. repeat apply conj; eassumption.
Qed.

Lemma redirect_guard_alternates_witness :
  exists l1 l2 l3 ev1 ev2 ev3,
    finishedRequest clean_already false started_loader redirected_reply
    = Some (l1, ev1)
    /\ List.length (requests_of l1) = 10%nat
    /\ finishedRequest clean_already false l1 redirected_reply
       = Some (l2, ev2)
    /\ List.length (requests_of l2) = 10%nat
    /\ finishedRequest clean_already false l2 redirected_reply
       = Some (l3, ev3)
    /\ List.length (requests_of l3) = 11%nat.
Proof.
  destruct (redirect_guard_alternates clean_already false started_loader
              (mkManager true None
                 (sent_requests clean_already empty_disk (sample_loader false)
                    0%nat (rectangle (sample_loader false))))
              redirected_reply redirected_reply redirected_reply
              "http://y/0.png")
    as (l1 & l2 & l3 & ev1 & ev2 & ev3 & H1 & Hq1 & H2 & Hq2 & H3 & Hq3);
    try reflexivity; try discriminate.
  exists l1, l2, l3, ev1, ev2, ev3. unfold requests_of.
  rewrite Hq2, Hq1, Hq3. repeat apply conj; try assumption; reflexivity.
Defined.

(** ** The size of a batch *)






(** ** The records and signals of [start] *)

Section RecordFacts.

Variable cleanPath : string -> string.
Variable disk : string -> option QImage.
Variable l : TileLoader.

Local Abbreviation tiles_from := (loaded_tiles cleanPath disk l).
Local Abbreviation requests_from := (sent_requests cleanPath disk l).

(** A record comes from the cache or waits for the reply to the request for
    its own tile. *)
Lemma tiles_from_kinds (coords : list (Z * Z)) (t : MapTile) :
  forall next,
    In t (tiles_from next coords) ->
    let path := cachedPathForTile cleanPath l (x_ t) (y_ t) (zoom_ l) in
    (reply_ t = None /\ disk path = Some (image_ t))
    \/ (exists h,
           reply_ t = Some h /\ image_ t = null_image /\ disk path = None
           /\ offline_mode_ l = false
           /\ In (h, mkRequest (uriForTile l (x_ t) (y_ t))
                       [("User-Agent", userAgent)])
                 (requests_from next coords)).
Proof.
  induction coords as [| [x y] coords IH]; intros next; [contradiction |].
  cbn [loaded_tiles sent_requests].
  destruct (disk (cachedPathForTile cleanPath l x y (zoom_ l))) as [image |]
    eqn:E.
  - intros [<- | Hin]; [left; cbn; auto | now apply IH].
  - destruct (offline_mode_ l) eqn:Hoff; cbn [negb]; [now apply IH |].
    intros [<- | Hin].
    + right. exists next. cbn. repeat split; auto.
    + destruct (IH _ Hin) as [Hc | (h & H1 & H2 & H3 & H4 & H5)];
        [now left |].
      right. exists h. repeat split; auto. now right.
Qed.

Lemma requests_from_headers (coords : list (Z * Z)) :
  forall next,
    Forall (fun q => rawHeaders (snd q) = [("User-Agent", userAgent)])
      (requests_from next coords).
Proof.
  induction coords as [| [x y] coords IH]; intros next; [constructor |].
  cbn [sent_requests].
  destruct (disk (cachedPathForTile cleanPath l x y (zoom_ l)));
    [apply IH |].
  destruct (offline_mode_ l); cbn [negb]; [apply IH |].
  constructor; [reflexivity | apply IH].
Qed.

End RecordFacts.

(** X7: every record [start] makes is of one of two kinds.  Either the
    cache file of its tile exists, and the record holds what that file
    loads as and no reply; or the file does not exist, the loader is
    online, and the record has no image and holds the reply to a request
    for the URL of its own tile, sent with the User-Agent header. *)
Theorem start_record_kinds (cleanPath : string -> string)
    (disk : string -> option QImage) (l : TileLoader) (t : MapTile) :
  In t (tiles_ (fst (start cleanPath disk l))) ->
  let path := cachedPathForTile cleanPath l (x_ t) (y_ t) (zoom_ l) in
  (reply_ t = None /\ disk path = Some (image_ t))
  \/ (exists h,
         reply_ t = Some h /\ image_ t = null_image /\ disk path = None
         /\ offline_mode_ l = false
         /\ In (h, mkRequest (uriForTile l (x_ t) (y_ t))
                     [("User-Agent", userAgent)])
               (requests_of (fst (start cleanPath disk l)))).
Proof.
  rewrite start_eq. cbn [fst tiles_ set_qnam set_tiles requests_of qnam_].
  cbn [requests]. apply tiles_from_kinds.
Qed.

Lemma start_record_kinds_witness :
  reply_ (MapTile_image 1 1 2 (pixels 7)) = None
  /\ disk_with_center
       (cachedPathForTile clean_already (sample_loader false) 1 1 2)
     = Some (pixels 7)
  \/ exists h,
       reply_ (MapTile_image 1 1 2 (pixels 7)) = Some h
       /\ image_ (MapTile_image 1 1 2 (pixels 7)) = null_image
       /\ disk_with_center
            (cachedPathForTile clean_already (sample_loader false) 1 1 2)
          = None
       /\ offline_mode_ (sample_loader false) = false
       /\ In (h, mkRequest (uriForTile (sample_loader false) 1 1)
                   [("User-Agent", userAgent)])
             (requests_of
                (fst (start clean_already disk_with_center
                        (sample_loader false)))).
Proof.
  apply (start_record_kinds clean_already disk_with_center
           (sample_loader false) (MapTile_image 1 1 2 (pixels 7))).
  vm_compute. tauto.
Defined.

(** X8: [start] emits one [initiatedRequest] for each request it sends, in
    the order of sending and with that request, then [finishedLoading] if
    every record has an image, and no other signal; every request carries
    the User-Agent header and nothing else. *)
Theorem start_signals (cleanPath : string -> string)
    (disk : string -> option QImage) (l : TileLoader) :
  let l' := fst (start cleanPath disk l) in
  snd (start cleanPath disk l)
  = (map (fun q => initiatedRequest (snd q)) (requests_of l')
     ++ (if forallb hasImage (tiles_ l') then [finishedLoading] else []))%list
  /\ Forall (fun q => rawHeaders (snd q) = [("User-Agent", userAgent)])
       (requests_of l').
Proof.
  intros l'. unfold l'. rewrite start_eq.
  cbn [fst snd tiles_ set_qnam set_tiles requests_of qnam_ requests].
  split; [reflexivity | apply requests_from_headers].
Qed.


(** ** Proxy specifications, by their colons *)

Lemma split_not_nil (sep : ascii) (s : string) : split sep s <> [].
Proof.
  destruct s as [| c s]; cbn [split]; [discriminate |].
  destruct (Ascii.eqb c sep); [discriminate |].
  destruct (split sep s); discriminate.
Qed.

Lemma split_length (sep : ascii) (s : string) :
  List.length (split sep s) = S (count_char sep s).
Proof.
  induction s as [| c s IH]; [reflexivity |]. cbn [split count_char].
  destruct (Ascii.eqb c sep); cbn [List.length Nat.add]; [now rewrite IH |].
  destruct (split sep s) as [| field fields] eqn:E;
    [now apply split_not_nil in E |].
  exact IH.
Qed.

Lemma split_without_sep (sep : ascii) (s : string) :
  count_char sep s = 0%nat -> split sep s = [s].
Proof.
  induction s as [| c s IH]; [reflexivity |]. cbn [split count_char].
  destruct (Ascii.eqb c sep); [discriminate |]. cbn [Nat.add]. intros H.
  now rewrite IH.
Qed.

Lemma split_at_sep (sep : ascii) (a b : string) :
  count_char sep a = 0%nat ->
  split sep (a ++ String sep b) = a :: split sep b.
Proof.
  induction a as [| c a IH]; cbn [split count_char append].
  - now rewrite Ascii.eqb_refl.
  - destruct (Ascii.eqb c sep); [discriminate |]. cbn [Nat.add]. intros H.
    now rewrite IH.
Qed.

(** X9: the proxy specification is read by its colons alone.  With exactly
    one colon, the proxy has the text before it as host and the text after
    it, read by [toUInt] and cut to 16 bits, as port; with no colon, or
    with two or more (a URL with its scheme, an IPv6 address), it has no
    host and the port 0, which leaves proxying off. *)
Theorem TileLoader_proxy_by_colons (toUInt : string -> Z) :
  (forall host port_field,
      count_char ":" host = 0%nat -> count_char ":" port_field = 0%nat ->
      TileLoader_proxy toUInt (host ++ String ":" port_field)
      = HttpProxy host (toUInt port_field mod 2 ^ 16))
  /\ (forall spec,
         count_char ":" spec <> 1%nat ->
         TileLoader_proxy toUInt spec = HttpProxy "" 0).
Proof.
  split.
  - intros host port_field Hhost Hport. unfold TileLoader_proxy.
    rewrite (split_at_sep ":" host port_field Hhost).
    rewrite (split_without_sep ":" port_field Hport). reflexivity.
  - intros spec Hcount. unfold TileLoader_proxy.
    rewrite split_length.
    replace (S (count_char ":" spec) =? 2)%nat with false; [reflexivity |].
    symmetry. apply Nat.eqb_neq. lia.
Qed.

(** ** Templates that use each placeholder once *)

Lemma length_append (a b : string) :
  length (a ++ b) = (length a + length b)%nat.
Proof. induction a as [| c a IH]; simpl; [reflexivity | now rewrite IH]. Qed.

Lemma append_assoc (a b c : string) :
  ((a ++ b) ++ c)%string = (a ++ (b ++ c))%string.
Proof. induction a as [| x a IH]; simpl; [reflexivity | now rewrite IH]. Qed.

Lemma substring_prefix (a w : string) : substring 0 (length a) (a ++ w) = a.
Proof. induction a as [| c a IH]; simpl; [now destruct w | now rewrite IH]. Qed.

Lemma substring_skip (a w : string) (k m : nat) :
  substring (length a + k) m (a ++ w) = substring k m w.
Proof. induction a as [| c a IH]; simpl; [reflexivity | exact IH]. Qed.

Lemma substring_all (b : string) : substring 0 (length b) b = b.
Proof. induction b as [| c b IH]; simpl; [reflexivity | now rewrite IH]. Qed.

(** Replacing the three characters behind [a] by [rep]. *)
Lemma string_replace_at (a b rep : string) (x y z : ascii) :
  string_replace (a ++ String x (String y (String z b))) (length a) 3 rep
  = (a ++ rep ++ b)%string.
Proof.
  unfold string_replace. rewrite substring_prefix. f_equal. f_equal.
  rewrite <- (Nat.add_0_r (length a + 3)), <- Nat.add_assoc.
  rewrite substring_skip, length_append. cbn [length Nat.add].
  replace (length a + S (S (S (length b))) - (length a + 3))%nat
    with (length b) by lia.
  cbn [substring]. apply substring_all.
Qed.

Lemma token_at_cons (c a : ascii) (s : string) (i : nat) :
  token_at c (String a s) (S i) = token_at c s i.
Proof. reflexivity. Qed.

Lemma token_at_app_r (c : ascii) (a w : string) (j : nat) :
  token_at c (a ++ w) (length a + j) = token_at c w j.
Proof.
  induction a as [| x a IH]; [reflexivity |].
  cbn [append length Nat.add]. now rewrite token_at_cons.
Qed.

Lemma token_at_brace_free (c : ascii) (a w : string) (i : nat) :
  brace_free a = true -> (i < length a)%nat -> token_at c (a ++ w) i = false.
Proof.
  revert i. induction a as [| x a IH]; intros i Ha Hi; [simpl in Hi; lia |].
  cbn [brace_free string_forall] in Ha. apply andb_true_iff in Ha as [Hx Ha].
  destruct i as [| i].
  - unfold token_at. cbn [append get char_is].
    apply negb_true_iff in Hx. now rewrite Hx.
  - cbn [append]. rewrite token_at_cons. apply IH; [exact Ha |].
    simpl in Hi. lia.
Qed.

Lemma regex_search_from_none (c : ascii) (s : string) (end_ n : nat) :
  forall start,
    (forall i, (start <= i)%nat -> token_at c s i = false) ->
    regex_search_from c s start end_ n = None.
Proof.
  induction n as [| n IH]; intros start Hno; [reflexivity |].
  cbn [regex_search_from]. rewrite (Hno start) by lia.
  rewrite andb_false_r. apply IH. intros i Hi. apply Hno. lia.
Qed.

Lemma regex_search_from_first (c : ascii) (s : string) (end_ p n : nat) :
  forall start,
    token_at c s p = true -> (p + 3 <= end_)%nat ->
    (forall i, (start <= i < p)%nat -> token_at c s i = false) ->
    (start <= p)%nat -> (p - start < n)%nat ->
    regex_search_from c s start end_ n = Some p.
Proof.
  induction n as [| n IH]; intros start Hp Hend Hno Hle Hn; [lia |].
  cbn [regex_search_from].
  destruct (Nat.eq_dec start p) as [-> | Hne].
  - rewrite Hp. now replace (p + 3 <=? end_)%nat with true
      by (symmetry; apply Nat.leb_le; lia).
  - rewrite (Hno start) by lia. rewrite andb_false_r.
    apply IH; try assumption; try lia. intros i Hi. apply Hno. lia.
Qed.

(** A string without match is returned as it is. *)
Lemma replaceRegex_none (c : ascii) (s rep : string) :
  (forall i, token_at c s i = false) -> replaceRegex c s rep = (s, 0%nat).
Proof.
  intros Hno. unfold replaceRegex. cbn [replace_loop].
  unfold regex_search. now rewrite regex_search_from_none.
Qed.

(** A string with one match, [a] before it and [b] behind it: the match is
    replaced and the search that follows finds nothing. *)
Lemma replaceRegex_one (c l : ascii) (a b rep : string) :
  same_letter c l = true ->
  (forall i, (i < length a)%nat ->
             token_at c (a ++ String "{" (String l (String "}" b))) i
             = false) ->
  (forall i, token_at c b i = false) ->
  brace_free rep = true ->
  replaceRegex c (a ++ String "{" (String l (String "}" b))) rep
  = ((a ++ rep ++ b)%string, 1%nat).
Proof.
  intros Hl Hbefore Hb Hrep. unfold replaceRegex.
  set (s := (a ++ String "{" (String l (String "}" b)))%string).
  assert (Hlen : length s = (length a + 3 + length b)%nat).
  { unfold s. rewrite length_append. simpl. lia. }
  assert (Hat : token_at c s (length a) = true).
  { unfold s. rewrite <- (Nat.add_0_r (length a)), token_at_app_r.
    unfold token_at. cbn [get Nat.add char_is char_is_icase].
    fold (same_letter c l). now rewrite Hl. }
  cbn [replace_loop]. unfold regex_search.
  rewrite (regex_search_from_first c s (length s) (length a));
    try assumption; try lia.
  2: { intros i Hi. apply Hbefore. lia. }
  rewrite Nat.sub_0_r.
  replace (string_replace s (length a) 3 rep) with (a ++ rep ++ b)%string
    by (symmetry; apply string_replace_at).
  rewrite (replace_loop_fuel c rep (length s) (length s) (S (length b)))
    by lia.
  cbn [replace_loop]. unfold regex_search.
  rewrite regex_search_from_none; [reflexivity |].
  intros i Hi. replace i with (length a + (i - length a))%nat by lia.
  rewrite token_at_app_r.
  destruct (Nat.lt_ge_cases (i - length a) (length rep)) as [Hlt | Hge].
  - now apply token_at_brace_free.
  - replace (i - length a)%nat
      with (length rep + (i - length a - length rep))%nat by lia.
    rewrite token_at_app_r. apply Hb.
Qed.

Lemma render_app (pre post : list segment) :
  render (pre ++ post) = (render pre ++ render post)%string.
Proof.
  induction pre as [| [s | l] pre IH]; simpl;
    [reflexivity | now rewrite IH, append_assoc | now rewrite IH].
Qed.

Lemma append_nil_r (s : string) : (s ++ "")%string = s.
Proof. induction s as [| c s IH]; simpl; [reflexivity | now rewrite IH]. Qed.

Lemma token_at_beyond (c : ascii) (s : string) (i : nat) :
  (length s <= i)%nat -> token_at c s i = false.
Proof.
  revert i. induction s as [| a s IH]; intros i Hi.
  - unfold token_at. now destruct i.
  - destruct i as [| i]; [simpl in Hi; lia |].
    rewrite token_at_cons. apply IH. simpl in Hi. lia.
Qed.

Section TemplateFacts.

Variable c : ascii.
Hypothesis c_not_brace : char_is_icase c (Some "}"%char) = false.

(** Pieces without a placeholder for [c]: no match begins in them. *)
Lemma no_token_before (pre : list segment) :
  forallb plain pre = true -> uses c pre = 0%nat ->
  forall w i,
    (i < length (render pre))%nat -> token_at c (render pre ++ w) i = false.
Proof.
  unfold uses.
  induction pre as [| [s | l] pre IH]; intros Hplain Huses w i Hi;
    cbn [render forallb plain filter is_placeholder] in *.
  - simpl in Hi. lia.
  - apply andb_true_iff in Hplain as [Hs Hplain]. rewrite append_assoc.
    rewrite length_append in Hi.
    destruct (Nat.lt_ge_cases i (length s)) as [Hlt | Hge].
    + now apply token_at_brace_free.
    + replace i with (length s + (i - length s))%nat by lia.
      rewrite token_at_app_r. apply IH; try assumption. lia.
  - destruct (same_letter c l) eqn:El; [discriminate |].
    cbn [append]. destruct i as [| [| [| i]]].
    + unfold token_at. cbn [get Nat.add char_is char_is_icase].
      fold (same_letter c l). rewrite El. now rewrite andb_false_r.
    + rewrite token_at_cons. unfold token_at.
      cbn [get Nat.add]. rewrite c_not_brace. now rewrite andb_false_r.
    + rewrite !token_at_cons. reflexivity.
    + rewrite !token_at_cons. apply IH; try assumption.
      cbn [length] in Hi. lia.
Qed.

Lemma no_token_render (segs : list segment) :
  forallb plain segs = true -> uses c segs = 0%nat ->
  forall i, token_at c (render segs) i = false.
Proof.
  intros Hplain Huses i.
  destruct (Nat.lt_ge_cases i (length (render segs))) as [Hlt | Hge].
  - rewrite <- (append_nil_r (render segs)). now apply no_token_before.
  - now apply token_at_beyond.
Qed.

Lemma uses_one (segs : list segment) :
  uses c segs = 1%nat ->
  exists pre l post,
    segs = (pre ++ Placeholder l :: post)%list
    /\ same_letter c l = true /\ uses c pre = 0%nat /\ uses c post = 0%nat.
Proof.
  unfold uses. induction segs as [| seg segs IH]; [discriminate |].
  cbn [filter]. destruct (is_placeholder c seg) eqn:E.
  - cbn [List.length]. intros [= H]. destruct seg as [s | l]; [discriminate |].
    exists [], l, segs. auto.
  - intros H. destruct (IH H) as (pre & l & post & -> & Hl & Hpre & Hpost).
    exists (seg :: pre), l, post. cbn [filter app]. rewrite E. auto.
Qed.

Lemma fill_unused (value : string) (segs : list segment) :
  uses c segs = 0%nat -> map (fill c value) segs = segs.
Proof.
  unfold uses. induction segs as [| seg segs IH]; [reflexivity |].
  cbn [filter map]. unfold fill at 1.
  destruct (is_placeholder c seg); [discriminate |]. intros H.
  now rewrite IH.
Qed.

(** A template in pieces that has at most one placeholder for [c]:
    [replaceRegex] fills it in, and returns how many there were. *)
Lemma replaceRegex_render (value : string) (segs : list segment) :
  forallb plain segs = true -> (uses c segs <= 1)%nat ->
  brace_free value = true ->
  replaceRegex c (render segs) value
  = (render (map (fill c value) segs), uses c segs).
Proof.
  intros Hplain Huses Hvalue.
  destruct (uses c segs) as [| [| n]] eqn:E; [| | lia].
  - rewrite fill_unused by assumption.
    apply replaceRegex_none. now apply no_token_render.
  - destruct (uses_one segs E) as (pre & l & post & -> & Hl & Hpre & Hpost).
    rewrite forallb_app in Hplain. apply andb_true_iff in Hplain as [Hp1 Hp2].
    cbn [forallb plain] in Hp2.
    rewrite map_app, !render_app. cbn [map render]. unfold fill at 2.
    cbn [is_placeholder]. rewrite Hl. cbn [render].
    rewrite !fill_unused by assumption.
    apply replaceRegex_one; try assumption.
    + intros i Hi. now apply no_token_before.
    + now apply no_token_render.
Qed.

End TemplateFacts.

Lemma uses_fill (c c' : ascii) (value : string) (segs : list segment) :
  (uses c' (map (fill c value) segs) <= uses c' segs)%nat.
Proof.
  unfold uses. induction segs as [| seg segs IH]; [apply Nat.le_refl |].
  cbn [map filter]. unfold fill at 1.
  destruct (is_placeholder c seg), (is_placeholder c' seg) eqn:E;
    cbn [is_placeholder List.length]; rewrite ?E; cbn [List.length]; lia.
Qed.

Lemma plain_fill (c : ascii) (value : string) (segs : list segment) :
  brace_free value = true -> forallb plain segs = true ->
  forallb plain (map (fill c value) segs) = true.
Proof.
  intros Hvalue. induction segs as [| seg segs IH]; [reflexivity |].
  cbn [map forallb]. intros H. apply andb_true_iff in H as [Hseg H].
  rewrite IH by assumption. unfold fill.
  destruct (is_placeholder c seg); cbn [plain]; now rewrite ?Hvalue, ?Hseg.
Qed.

Lemma string_forall_impl (p q : ascii -> bool) (s : string) :
  (forall a, p a = true -> q a = true) ->
  string_forall p s = true -> string_forall q s = true.
Proof.
  intros Hpq. induction s as [| a s IH]; [reflexivity |].
  cbn [string_forall]. intros H. apply andb_true_iff in H as [Ha H].
  now rewrite (Hpq a Ha), IH.
Qed.

Lemma brace_free_to_string (z : Z) : brace_free (to_string z) = true.
Proof.
  apply (string_forall_impl numeral_char); [| apply to_string_numeral].
  intros a Ha. destruct (Ascii.eqb_spec a "{") as [-> | _]; [| reflexivity].
  discriminate Ha.
Qed.

(** X10: for a template made of text without opening brace and of
    placeholders, in any order and in either case, that has at most one
    placeholder for each of x, y and z, [uriForTile] gives the template with
    the decimal forms of x, y and the zoom level in their places;
    placeholders with other letters stay. *)
Theorem uriForTile_template (l : TileLoader) (segs : list segment) (x y : Z) :
  object_uri_ l = render segs ->
  forallb plain segs = true ->
  (uses "x" segs <= 1)%nat -> (uses "y" segs <= 1)%nat ->
  (uses "z" segs <= 1)%nat ->
  uriForTile l x y
  = render (map (fill "z" (to_string (zoom_ l)))
              (map (fill "y" (to_string y))
                 (map (fill "x" (to_string x)) segs))).
Proof.
  intros Huri Hplain Hx Hy Hz. unfold uriForTile. rewrite Huri.
  rewrite (replaceRegex_render "x") by
    (try reflexivity; try assumption; apply brace_free_to_string).
  cbn [fst].
  rewrite (replaceRegex_render "y");
    [| reflexivity
     | apply plain_fill; [apply brace_free_to_string | assumption]
     | etransitivity; [apply uses_fill | assumption]
     | apply brace_free_to_string].
  cbn [fst].
  rewrite (replaceRegex_render "z");
    [reflexivity
    | reflexivity
    | repeat apply plain_fill; try apply brace_free_to_string; assumption
    | etransitivity; [apply uses_fill |];
      etransitivity; [apply uses_fill | assumption]
    | apply brace_free_to_string].
Qed.

Lemma uriForTile_template_witness :
  uriForTile (loader_of_template "http://x/{Z}/{x}/{y}.png?key={k}" 7) 3 5
  = "http://x/7/3/5.png?key={k}".
Proof.
  apply (uriForTile_template
           (loader_of_template "http://x/{Z}/{x}/{y}.png?key={k}" 7)
           [Text "http://x/"; Placeholder "Z"; Text "/"; Placeholder "x";
            Text "/"; Placeholder "y"; Text ".png?key="; Placeholder "k"]
           3 5);
    try reflexivity; simpl; lia.
Defined.

(** ** Construction *)

Lemma floor_to_int_floorZ (x : float) (i : Z) :
  floor_to_int x = Some i -> floorZ x = Some i /\ in_int i.
Proof.
  unfold floor_to_int, in_int. destruct (floorZ x) as [z |]; [| discriminate].
  destruct ((INT_MIN <=? z) && (z <=? INT_MAX)) eqn:E; [| discriminate].
  intros [= <-]. apply andb_true_iff in E as [E1 E2].
  apply Z.leb_le in E1, E2. auto.
Qed.

Lemma latLonToTileCoords_Return (std_log std_tan std_cos : float -> float)
    (lat lon : float) (zoom : Z) (x y : float) :
  latLonToTileCoords std_log std_tan std_cos lat lon zoom = Return (x, y) ->
  zoom <= 31
  /\ x = (double_of_uint (wrap_uint (int_shl1 zoom))
          * ((lon + double_of_int 180) / 360.0))%float.
Proof.
  unfold latLonToTileCoords. destruct (zoom >? 31) eqn:Ez; [discriminate |].
  destruct (_ || _)%bool; [discriminate |].
  destruct (_ || _)%bool; [discriminate |].
  intros [= <- _]. split; [| reflexivity].
  rewrite Z.gtb_ltb in Ez. apply Z.ltb_ge in Ez. exact Ez.
Qed.

Section ConstructionFacts.

Variables std_log std_tan std_cos : float -> float.
Variable hash_fn : string -> Z.
Variable cleanPath : string -> string.
Variable toUInt : string -> Z.
Variable dir_exists : string -> bool.
Variable mkpath : string -> bool.
Variable NDEBUG : bool.

Local Abbreviation new :=
  (TileLoader_new std_log std_tan std_cos hash_fn cleanPath toUInt dir_exists
     mkpath NDEBUG).
Local Abbreviation toTileCoords :=
  (latLonToTileCoords std_log std_tan std_cos).

(** What a constructed loader is made of. *)
Lemma TileLoader_new_constructed (service : string) (latitude longitude : float)
    (zoom blocks : Z) (proxy cache_base_path : string) (offline_mode : bool)
    (o : TileLoader_members) :
  new service latitude longitude zoom blocks proxy cache_base_path offline_mode
  = Constructed o ->
  exists x y cx cy,
    toTileCoords latitude longitude zoom = Return (x, y)
    /\ floor_to_int x = Some cx /\ floor_to_int y = Some cy
    /\ (NDEBUG = false -> 0 <= wrap_int blocks)
    /\ o = mkMembers
             (mkTileLoader zoom (wrap_int blocks) cx cy service
                (cleanPath (cache_base_path ++ separator
                            ++ to_string (hash_fn service)))
                offline_mode (TileLoader_proxy toUInt proxy) "" [] None 0%nat)
             latitude longitude proxy
             (x - double_of_int cx)%float (y - double_of_int cy)%float.
Proof.
  unfold TileLoader_new.
  destruct (negb NDEBUG && (wrap_int blocks <? 0)) eqn:Ea; [discriminate |].
  destruct (negb (dir_exists _) && negb (mkpath _)); [discriminate |].
  destruct (toTileCoords latitude longitude zoom) as [[x y] | e] eqn:Exy;
    [| discriminate].
  destruct (floor_to_int x) as [cx |] eqn:Ecx; [| discriminate].
  destruct (floor_to_int y) as [cy |] eqn:Ecy; [| discriminate].
  intros [= <-]. exists x, y, cx, cy.
  repeat apply conj; try reflexivity; try assumption.
  intros Hn. rewrite Hn in Ea. cbn in Ea. apply Z.ltb_ge in Ea. exact Ea.
Qed.

(** X11: the constructor checks in a fixed order.  With the assertion on
    [blocks_] passed or compiled out, a cache folder that neither exists
    nor can be made ends it with a runtime error, before the coordinates
    are looked at; with the folder there, coordinates that
    [latLonToTileCoords] refuses end it with that very exception. *)
Theorem TileLoader_new_failures (service : string) (latitude longitude : float)
    (zoom blocks : Z) (proxy cache_base_path : string) (offline_mode : bool) :
  negb NDEBUG && (wrap_int blocks <? 0) = false ->
  let cache_path :=
    cleanPath (cache_base_path ++ separator ++ to_string (hash_fn service)) in
  let built :=
    new service latitude longitude zoom blocks proxy cache_base_path
      offline_mode in
  (dir_exists cache_path = false -> mkpath cache_path = false ->
   built = runtime_error ("Failed to create cache folder: " ++ cache_path))
  /\ (dir_exists cache_path = true \/ mkpath cache_path = true ->
      forall e,
        toTileCoords latitude longitude zoom = Throw e ->
        built = invalid_argument e).
Proof.
  intros Ha cache_path built. subst built. unfold TileLoader_new.
  rewrite Ha. fold cache_path. split.
  - intros -> ->. reflexivity.
  - intros Hdir e ->.
    destruct Hdir as [-> | ->]; cbn [negb andb]; rewrite ?andb_false_r;
      reflexivity.
Qed.

(** X12: a loader the constructor returns has a zoom level of at most 31,
    center coordinates within [int], no record and no manager, and, with
    assertions on, a [blocks_] that is not negative: what the theorems on
    [start] ask of a loader.  Its coordinates passed the checks of
    [latLonToTileCoords]. *)
Theorem TileLoader_new_invariants (service : string)
    (latitude longitude : float) (zoom blocks : Z)
    (proxy cache_base_path : string) (offline_mode : bool)
    (o : TileLoader_members) :
  new service latitude longitude zoom blocks proxy cache_base_path offline_mode
  = Constructed o ->
  zoom_ (loader o) = zoom /\ zoom <= 31
  /\ in_int (center_tile_x_ (loader o)) /\ in_int (center_tile_y_ (loader o))
  /\ tiles_ (loader o) = [] /\ qnam_ (loader o) = None
  /\ (NDEBUG = false -> 0 <= blocks_ (loader o) <= INT_MAX)
  /\ localhostProxy (loader o) = TileLoader_proxy toUInt proxy
  /\ throws (toTileCoords latitude longitude zoom) = false.
Proof.
  intros H. apply TileLoader_new_constructed in H
    as (x & y & cx & cy & Hxy & Hcx & Hcy & Hb & ->).
  cbn [loader zoom_ center_tile_x_ center_tile_y_ tiles_ qnam_ blocks_
       localhostProxy].
  apply floor_to_int_floorZ in Hcx as [_ Hcx], Hcy as [_ Hcy].
  pose proof (latLonToTileCoords_Return _ _ _ _ _ _ _ _ Hxy) as [Hz _].
  repeat apply conj; try reflexivity; try apply Hcx; try apply Hcy;
    try assumption.
  - intros Hn. pose proof (wrap_int_range blocks) as [_ Hhi].
    split; [auto | exact Hhi].
  - now rewrite Hxy.
Qed.

(** X13: [insideCentreTile] answers for points [latLonToTileCoords]
    accepts only: for any other point it throws, it does not answer false.
    For the point the loader was constructed with, it answers true. *)
Theorem insideCentreTile_answers (o : TileLoader_members) (lat lon : float) :
  (forall e,
      toTileCoords lat lon (zoom_ (loader o)) = Throw e ->
      insideCentreTile std_log std_tan std_cos o lat lon = Throw e)
  /\ (forall service zoom blocks proxy cache_base_path offline_mode,
         new service lat lon zoom blocks proxy cache_base_path offline_mode
         = Constructed o ->
         insideCentreTile std_log std_tan std_cos o lat lon = Return true).
Proof.
  split.
  - intros e He. unfold insideCentreTile. now rewrite He.
  - intros service zoom blocks proxy cache_base_path offline_mode H.
    apply TileLoader_new_constructed in H
      as (x & y & cx & cy & Hxy & Hcx & Hcy & _ & ->).
    unfold insideCentreTile.
    cbn [loader zoom_ center_tile_x_ center_tile_y_]. rewrite Hxy.
    apply floor_to_int_floorZ in Hcx as [Hcx _], Hcy as [Hcy _].
    unfold floor_is. now rewrite Hcx, Hcy, !Z.eqb_refl.
Qed.

End ConstructionFacts.

Lemma TileLoader_new_failures_witness :
  TileLoader_new (fun v => v) (fun v => v) (fun v => v) (fun _ => 42)
    clean_already (fun _ => 0) (fun _ => false) (fun _ => false) false
    "http://x/{z}/{x}/{y}.png" 86%float 181%float 32 1 "" "/cache" false
  = runtime_error "Failed to create cache folder: /cache/42".
Proof.
  apply (TileLoader_new_failures (fun v => v) (fun v => v) (fun v => v)
           (fun _ => 42) clean_already (fun _ => 0) (fun _ => false)
           (fun _ => false) false
           "http://x/{z}/{x}/{y}.png" 86%float 181%float 32 1 "" "/cache"
           false);
    reflexivity.
Defined.

Lemma TileLoader_new_invariants_witness :
  construct_on_equator 0 1 1 = Constructed (members_on_equator 0 1 1)
  /\ in_int (center_tile_x_ (loader (members_on_equator 0 1 1))).
Proof.
  split; [reflexivity |].
  destruct (TileLoader_new_invariants equator_log equator_tan equator_cos
              (fun _ => 42) clean_already (fun _ => 0) (fun _ => true)
              (fun _ => false) false
              "http://x/{z}/{x}/{y}.png" 0%float 0%float 1 1 "" "/cache" false
              (members_on_equator 0 1 1) eq_refl) as (_ & _ & H & _).
  exact H.
Defined.

Lemma insideCentreTile_answers_witness :
  insideCentreTile equator_log equator_tan equator_cos
    (members_on_equator 0 1 1) 0 0
  = Return true.
Proof.
  apply (proj2 (insideCentreTile_answers equator_log equator_tan equator_cos
                  (fun _ => 42) clean_already (fun _ => 0) (fun _ => true)
                  (fun _ => false) false (members_on_equator 0 1 1)
                  0%float 0%float)
           "http://x/{z}/{x}/{y}.png" 1 1 "" "/cache" false).
  reflexivity.
Defined.

(** ** The antimeridian *)

(** At longitude 180 the tile coordinate is the number of columns. *)
Lemma antimeridian_column (zoom : Z) :
  0 <= zoom <= 30 ->
  floor_to_int
    (double_of_uint (wrap_uint (int_shl1 zoom))
     * ((180 + double_of_int 180) / 360.0))%float
  = Some (2 ^ zoom).
Proof.
  intros Hz.
  assert (E : forallb
                (fun z =>
                   match
                     floor_to_int
                       (double_of_uint (wrap_uint (int_shl1 z))
                        * ((180 + double_of_int 180) / 360.0))%float
                   with
                   | Some c => c =? 2 ^ z
                   | None => false
                   end) (for_range 0 30) = true) by (vm_compute; reflexivity).
  rewrite forallb_forall in E. specialize (E zoom).
  rewrite in_for_range in E. specialize (E Hz).
  destruct (floor_to_int _) as [c |]; [| discriminate].
  apply Z.eqb_eq in E. now subst c.
Qed.

Lemma rectangle_nil (l : TileLoader) :
  Z.min (maxTiles l) (int_add (center_tile_x_ l) (blocks_ l))
  < Z.max 0 (int_sub (center_tile_x_ l) (blocks_ l)) ->
  rectangle l = [].
Proof.
  intros H. destruct (rectangle l) as [| [x y] r] eqn:E; [reflexivity |].
  assert (Hin : In (x, y) (rectangle l)) by (rewrite E; now left).
  apply in_rectangle in Hin. lia.
Qed.

Lemma rectangle_center_past_grid (l : TileLoader) :
  0 <= zoom_ l <= 30 -> center_tile_x_ l = 2 ^ zoom_ l -> blocks_ l = 0 ->
  rectangle l = [].
Proof.
  intros Hz Hc Hb. apply rectangle_nil. rewrite maxTiles_eq by lia.
  rewrite Hc, Hb. unfold int_sub. rewrite Z.sub_0_r.
  assert (0 < 2 ^ zoom_ l) by (apply Z.pow_pos_nonneg; lia).
  assert (2 ^ zoom_ l <= 2 ^ 30) by (apply Z.pow_le_mono_r; lia).
  rewrite wrap_int_id by (unfold in_int, INT_MIN, INT_MAX; lia).
  pose proof (Z.le_min_l (2 ^ zoom_ l - 1) (int_add (2 ^ zoom_ l) 0)). lia.
Qed.

Section Antimeridian.

Variables std_log std_tan std_cos : float -> float.
Variable hash_fn : string -> Z.
Variable cleanPath : string -> string.
Variable toUInt : string -> Z.
Variable dir_exists : string -> bool.
Variable mkpath : string -> bool.
Variable NDEBUG : bool.

(** X14: a loader constructed at longitude 180, which the constructor
    accepts, has its center column one past the last column of the grid,
    at every zoom level from 0 to 30.  No batch has a record in the center
    column, and with [blocks_ = 0] a batch has no record at all:
    [finishedLoading] is emitted by [start] with nothing loaded. *)
Theorem antimeridian_center_column (service : string) (latitude : float)
    (zoom blocks : Z) (proxy cache_base_path : string) (offline_mode : bool)
    (o : TileLoader_members) :
  0 <= zoom <= 30 ->
  TileLoader_new std_log std_tan std_cos hash_fn cleanPath toUInt dir_exists
    mkpath NDEBUG service latitude 180 zoom blocks proxy cache_base_path
    offline_mode
  = Constructed o ->
  center_tile_x_ (loader o) = 2 ^ zoom
  /\ maxTiles (loader o) = 2 ^ zoom - 1
  /\ forall disk : string -> option QImage,
       (forall t,
           In t (tiles_ (fst (start cleanPath disk (loader o)))) ->
           x_ t < center_tile_x_ (loader o))
       /\ (blocks_ (loader o) = 0 ->
           tiles_ (fst (start cleanPath disk (loader o))) = []
           /\ In finishedLoading (snd (start cleanPath disk (loader o)))).
Proof.
  intros Hz H. apply TileLoader_new_constructed in H
    as (x & y & cx & cy & Hxy & Hcx & Hcy & _ & ->).
  apply latLonToTileCoords_Return in Hxy as [_ ->].
  rewrite antimeridian_column in Hcx by assumption. injection Hcx as <-.
  cbn [loader center_tile_x_ blocks_].
  set (l := mkTileLoader _ _ _ _ _ _ _ _ _ _ _ _).
  assert (Hmax : maxTiles l = 2 ^ zoom - 1)
    by (apply maxTiles_eq; cbn [l zoom_]; lia).
  repeat apply conj; [reflexivity | exact Hmax |]. intros disk.
  assert (Ht : tiles_ (fst (start cleanPath disk l))
               = loaded_tiles cleanPath disk l (next_reply l) (rectangle l))
    by now rewrite start_eq.
  split.
  - intros t Hin. rewrite Ht in Hin. apply (in_map coordinates) in Hin.
    rewrite tiles_from_coordinates in Hin. apply filter_In in Hin as [Hin _].
    unfold coordinates in Hin. apply in_rectangle in Hin.
    destruct Hin as [[_ Hx] _]. rewrite Hmax in Hx. clearbody l. lia.
  - intros Hb.
    assert (Hr : rectangle l = [])
      by (apply rectangle_center_past_grid;
          [exact Hz | reflexivity | exact Hb]).
    assert (E : tiles_ (fst (start cleanPath disk l)) = [])
      by (rewrite Ht, Hr; reflexivity).
    split; [exact E |].
    destruct (start_events cleanPath disk l) as [_ Hc].
    rewrite E in Hc. cbn [forallb] in Hc.
    apply count_finishedLoading_in. rewrite Hc. lia.
Qed.

End Antimeridian.

Lemma antimeridian_center_column_witness :
  construct_on_equator 180 1 0 = Constructed (members_on_equator 180 0 2)
  /\ center_tile_x_ (loader (members_on_equator 180 0 2)) = 2 ^ 1.
Proof.
  split; [reflexivity |].
  assert (Hz : 0 <= 1 <= 30) by lia.
  destruct (antimeridian_center_column equator_log equator_tan equator_cos
              (fun _ => 42) clean_already (fun _ => 0) (fun _ => true)
              (fun _ => false) false
              "http://x/{z}/{x}/{y}.png" 0%float 1 0 "" "/cache" false
              (members_on_equator 180 0 2) Hz eq_refl) as [H _].
  exact H.
Defined.

Lemma TileLoader_proxy_by_colons_witness :
  TileLoader_proxy (fun _ => 70000) ("proxy" ++ String ":" "70000")
  = HttpProxy "proxy" (70000 mod 2 ^ 16).
Proof.
  apply (proj1 (TileLoader_proxy_by_colons (fun _ => 70000)) "proxy" "70000");
    reflexivity.
Defined.

(** ** The cache, written by a reply and read by the next batch *)

Lemma reply_unique (h : handle) (ts : list MapTile) (t t' : MapTile) :
  NoDup (replies ts) -> In t ts -> In t' ts ->
  reply_ t = Some h -> reply_ t' = Some h -> t = t'.
Proof.
  induction ts as [| a ts IH]; [contradiction |].
  cbn [replies flat_map]. fold (replies ts). intros Hnd Ht Ht' Hr Hr'.
  assert (Hout : reply_ a = Some h -> ~ In h (replies ts)).
  { intros Ha. rewrite Ha in Hnd. now inversion Hnd. }
  assert (Hin : forall u, In u ts -> reply_ u = Some h -> In h (replies ts)).
  { intros u Hu Hru. apply in_replies. eauto. }
  destruct Ht as [<- | Ht], Ht' as [<- | Ht']; [reflexivity | | |].
  - exfalso. apply (Hout Hr). eauto.
  - exfalso. apply (Hout Hr'). eauto.
  - apply IH; try assumption.
    destruct (reply_ a); [now inversion Hnd | exact Hnd].
Qed.

Lemma start_settings (cleanPath : string -> string)
    (disk : string -> option QImage) (l : TileLoader) :
  let l' := fst (start cleanPath disk l) in
  zoom_ l' = zoom_ l /\ cache_path_ l' = cache_path_ l
  /\ blocks_ l' = blocks_ l /\ center_tile_x_ l' = center_tile_x_ l
  /\ center_tile_y_ l' = center_tile_y_ l
  /\ object_uri_ l' = object_uri_ l /\ offline_mode_ l' = offline_mode_ l
  /\ localhostProxy l' = localhostProxy l.
Proof. intros l'. unfold l'. rewrite start_eq. cbn. tauto. Qed.

(** X16: the image of a reply is saved under the path the next batch looks
    for.  When a reply that brings an image finishes, for a record a batch
    made, the image is saved under [cachedPathForTile] of that record's
    tile at the loader's zoom level, a file [start] had not found, and
    [receivedImage] is emitted with the reply's request.  A batch started
    afterwards, with that file in the cache, makes for this tile a record
    that holds what the file loads as and no reply. *)
Theorem saved_image_found_by_next_start (cleanPath : string -> string)
    (setImage_resets_reply : bool) (disk : string -> option QImage)
    (l : TileLoader) (r : QNetworkReply) (t : MapTile) :
  let l0 := fst (start cleanPath disk l) in
  let path := cachedPathForTile cleanPath l (x_ t) (y_ t) (zoom_ l) in
  In t (tiles_ l0) -> reply_ t = Some (reply_id r) -> successful r ->
  disk path = None
  /\ exists l1,
       finishedRequest cleanPath setImage_resets_reply l0 r
       = Some (l1,
               ([image_save path (read r); receivedImage (request r)]
                ++ (if forallb hasImage (tiles_ l1) then [finishedLoading]
                    else []))%list)
       /\ forall (disk' : string -> option QImage) (image : QImage)
                 (t' : MapTile),
            disk' path = Some image ->
            In t' (tiles_ (fst (start cleanPath disk' l1))) ->
            coordinates t' = coordinates t ->
            image_ t' = image /\ reply_ t' = None /\ z_ t' = z_ t.
Proof.
  intros l0 path Hin Hr (Hred & Herr & Hread & Hnull).
  destruct (start_settings cleanPath disk l) as (Hzoom & Hcache & _).
  fold l0 in Hzoom, Hcache.
  destruct (start_waiting cleanPath disk l) as (_ & _ & _ & Hnd & _).
  fold l0 in Hnd.
  assert (Ht : tiles_ l0
               = loaded_tiles cleanPath disk l (next_reply l) (rectangle l))
    by (unfold l0; now rewrite start_eq).
  assert (Hz : z_ t = zoom_ l).
  { rewrite Ht in Hin. exact (tiles_from_zoom _ _ _ _ _ _ Hin). }
  split.
  - rewrite Ht in Hin.
    destruct (tiles_from_kinds cleanPath disk l _ _ _ Hin)
      as [[Hnone _] | (h & _ & _ & Hmiss & _)]; [congruence | exact Hmiss].
  - assert (Hh : In (reply_id r) (replies (tiles_ l0)))
      by (apply in_replies; eauto).
    destruct (find_if_reply _ _ Hh) as (i & Hfind).
    destruct (find_if_Some _ _ _ Hfind) as (t0 & Hnth & Hp).
    apply has_reply_true in Hp.
    assert (E : t0 = t).
    { apply (reply_unique (reply_id r) (tiles_ l0)); try assumption.
      eapply nth_error_In, Hnth. }
    subst t0.
    exists (set_tiles (set_urlRedirectedTo l0 "")
              (update_at i
                 (fun tile => setImage setImage_resets_reply tile (read r))
                 (tiles_ l0))).
    split.
    + unfold finishedRequest. rewrite Hred, redirectUrl_none.
      cbn [urlRedirectedTo set_urlRedirectedTo isEmpty String.eqb negb tiles_].
      rewrite Hfind, Herr, Hread, Hnth.
      cbn [Z.eqb NoError checkIfLoadingComplete tiles_ set_tiles].
      unfold path, cachedPathForTile. cbn [cache_path_ set_urlRedirectedTo].
      rewrite Hcache, Hz. reflexivity.
    + intros disk' image t' Hfile Hin' Hxy.
      set (l1 := set_tiles _ _) in Hin'.
      assert (Hin1 : In t' (loaded_tiles cleanPath disk' l1 (next_reply l1)
                              (rectangle l1)))
        by (rewrite start_eq in Hin'; exact Hin').
      assert (Hz1 : zoom_ l1 = zoom_ l) by exact Hzoom.
      assert (Hc1 : cache_path_ l1 = cache_path_ l) by exact Hcache.
      pose proof (tiles_from_zoom _ _ _ _ _ _ Hin1) as Hz'.
      destruct (tiles_from_kinds cleanPath disk' l1 _ _ _ Hin1)
        as [[Hnone Himg] | (h & _ & _ & Hmiss & _)].
      * unfold coordinates in Hxy. injection Hxy as Hx Hy.
        unfold cachedPathForTile in Himg. rewrite Hc1, Hz1, Hx, Hy in Himg.
        unfold path, cachedPathForTile in Hfile.
        repeat apply conj; [congruence | exact Hnone | congruence].
      * unfold coordinates in Hxy. injection Hxy as Hx Hy.
        unfold cachedPathForTile in Hmiss. rewrite Hc1, Hz1, Hx, Hy in Hmiss.
        unfold path, cachedPathForTile in Hfile. congruence.
Qed.

Lemma saved_image_found_by_next_start_witness :
  empty_disk
    (cachedPathForTile clean_already (sample_loader false) 1 1
       (zoom_ (sample_loader false)))
  = None
  /\ exists l1 ev,
       finishedRequest clean_already false started_loader (image_reply 4%nat 2)
       = Some (l1, (image_save "/cache/42/x1_y1_z2.jpg" (pixels 2) :: ev)).
Proof.
  destruct (saved_image_found_by_next_start clean_already false empty_disk
              (sample_loader false) (image_reply 4%nat 2)
              (MapTile_reply 1 1 2 4%nat))
    as (Hmiss & l1 & Hfin & _).
  - vm_compute. tauto.
  - reflexivity.
  - repeat split.
  - split; [exact Hmiss |]. exists l1. eexists. exact Hfin.
Defined.
